(** * FrameDAG: a parallel task-graph executor (DAG.h)

    A shallow embedding of [ThreadPool] and [DAG<T>] from [DAG.h] and the
    properties of the dispatch protocol of [execute_parallel].

    Conventions of the embedding.
    - [size_t] handles and vector indices are [nat]; vectors are lists read
      with stdpp's lookup [!!] and written with [<[i:=x]>] / [alter].
    - [int] and [std::atomic<int>] contents are [Z]; [std::atomic<size_t>]
      contents are [Z].  The atomic read-modify-write operations wrap, and
      the wrap-around is written out ([wrap_int], [wrap_size]).  The plain
      [int] increment of [add_edge] overflows at [INT_MAX] edges into one
      node: the language leaves the result undefined and the two's
      complement build wraps to [INT_MIN], which is what [add_edge] does
      here.  What is proved of a static in-degree says up to which number of
      edges it holds.
    - Threads are interleaved at the granularity of the atomic actions of the
      source (a queue operation under [queue_mutex], a [fetch_sub], a call or
      return of the work function); the atomics are used with the default,
      sequentially consistent, ordering.  A schedule is the list of thread
      identifiers that take the successive steps; a property of a pass is
      proved for every schedule.
    - A blocking wait on a condition variable with a predicate is a step
      that is enabled when the predicate holds; a notification has no other
      effect, but it is an access to the mutex and the condition variable:
      on those of [execute_parallel], which are local variables, it is a
      step of its own that is undefined once the call has returned.
    - The work function returns normally; it reads the ports of the graph
      and writes the payload it is handed and the port of its own node, as
      the work function of the sample program does, and its effect takes
      place when it returns.  During a pass the pool runs nothing but the
      dispatch tasks of that pass and is not being destroyed. *)

From stdpp Require Import base decidable option list numbers strings.
From Stdlib Require Import ZArith Lia.

(** ** Machine integers *)

Definition INT_MIN : Z := -2147483648.
Definition INT_MAX : Z := 2147483647.
Definition SIZE_MAX : Z := 18446744073709551615.

(** Two's complement wrap-around of a 32-bit [int]. *)
Definition wrap_int (z : Z) : Z := ((z - INT_MIN) `mod` 2 ^ 32 + INT_MIN)%Z.

(** Wrap-around of a 64-bit [size_t]. *)
Definition wrap_size (z : Z) : Z := (z `mod` 2 ^ 64)%Z.

(** [using NodeID = size_t;] *)
Abbreviation NodeID := nat (only parsing).

(** ** Generic sums over lists *)

(** [total f l] is the sum of [f x] for [x] in [l]. *)
Fixpoint total {A : Type} (f : A -> nat) (l : list A) : nat :=
  match l with
  | [] => 0
  | x :: l' => f x + total f l'
  end.

(** Number of occurrences of [x] in [l]. *)
Definition occ `{EqDecision A} (x : A) (l : list A) : nat :=
  total (fun y => if decide (y = x) then 1 else 0) l.

(** ** Template parameters

    [DAG<T>] is generic in the payload type [T]; a port holds a [std::any],
    that is a value together with the identity of its (decayed) type.  The
    types a program stores in ports are described by a set of type
    identities [TypeId] with decidable equality and their carriers. *)

Class Params := {
  Payload : Type;
  TypeId : Type;
  TypeId_eq_dec :: EqDecision TypeId;
  denote : TypeId -> Type
}.

(** Outcome of an operation that may throw [std::bad_any_cast] or index a
    vector out of bounds (undefined behaviour). *)
Inductive outcome (A : Type) : Type :=
| Value (a : A)
| BadAnyCast
| OutOfBounds.

Arguments Value {_} a.
Arguments BadAnyCast {_}.
Arguments OutOfBounds {_}.

(** ** The graph store *)

Section Store.
Context `{Params}.

(** [std::any]: empty, or a value tagged with its type. *)
Inductive any : Type :=
| AnyEmpty
| AnyVal (t : TypeId) (v : denote t).

(** [std::any_cast<ValType>(a)]: the stored value when the stored type is
    [V], the exception [std::bad_any_cast] otherwise. *)
Definition any_cast (V : TypeId) (a : any) : outcome (denote V) :=
  match a with
  | AnyEmpty => BadAnyCast
  | AnyVal t v =>
      match decide (t = V) with
      | left e => Value (eq_rect t denote v V e)
      | right _ => BadAnyCast
      end
  end.

(** [struct Node { T data; std::any output; };] *)
Record Node : Type := mkNode {
  data : Payload;
  output : any
}.

(** The members of [DAG<T>]. *)
Record DAG : Type := mkDAG {
  nodes : list Node;
  adj : list (list NodeID);
  base_indegree : list Z;
  current_indegree : list Z;
  remaining : Z
}.

(** A default-constructed [DAG<T>]: the vectors are empty;
    [std::atomic<size_t> remaining] has no initialiser, so under C++17 its
    content is indeterminate: [r0] stands for it. *)
Definition new_dag (r0 : Z) : DAG :=
  {| nodes := []; adj := []; base_indegree := [];
     current_indegree := []; remaining := r0 |}.

(** [size()] *)
Definition size (d : DAG) : nat := length (nodes d).

(** [add_node(data)] *)
Definition add_node (d : DAG) (x : Payload) : NodeID * DAG :=
  (length (nodes d),
   {| nodes := nodes d ++ [mkNode x AnyEmpty];
      adj := adj d ++ [[]];
      base_indegree := base_indegree d ++ [0%Z];
      current_indegree := current_indegree d;
      remaining := remaining d |}).

(** [add_edge(from, to)].  The three vectors [nodes], [adj] and
    [base_indegree] always have the same length, so after the guard both
    indexings are in range.  [base_indegree[to]++] increments a 32-bit
    [int]: from [INT_MAX] it goes to [INT_MIN]. *)
Definition add_edge (d : DAG) (from to : NodeID) : DAG :=
  if (length (nodes d) <=? from) || (length (nodes d) <=? to) then d
  else
    {| nodes := nodes d;
       adj := alter (fun succs => succs ++ [to]) from (adj d);
       base_indegree := alter (fun k => wrap_int (k + 1)) to (base_indegree d);
       current_indegree := current_indegree d;
       remaining := remaining d |}.

(** The loop [for (i = 0; i < nodes.size(); ++i)
    current_indegree[i].store(base_indegree[i]);] *)
Definition store_loop (n : nat) (base cur : list Z) : list Z :=
  foldl (fun c i => <[i := default 0%Z (base !! i)]> c) cur (seq 0 n).

(** [reset()] *)
Definition reset (d : DAG) : DAG :=
  let n := length (nodes d) in
  let cur0 :=
    if decide (length (current_indegree d) = n) then current_indegree d
    else replicate n 0%Z in
  {| nodes := nodes d;
     adj := adj d;
     base_indegree := base_indegree d;
     current_indegree := store_loop n (base_indegree d) cur0;
     remaining := Z.of_nat n |}.

(** [set_port_value(id, value)]: [nodes[id].output = std::move(value)].
    [nodes[id]] is an unchecked [operator[]]: out of range it is undefined
    behaviour, for which the embedding has no result. *)
Definition set_port_value (d : DAG) (id : NodeID) (value : any) : option DAG :=
  match nodes d !! id with
  | None => None
  | Some nd =>
      Some {| nodes := <[id := mkNode (data nd) value]> (nodes d);
              adj := adj d;
              base_indegree := base_indegree d;
              current_indegree := current_indegree d;
              remaining := remaining d |}
  end.

(** [get_port_value<ValType>(id)]:
    [return std::any_cast<ValType>(nodes[id].output);] *)
Definition get_port_value (d : DAG) (id : NodeID) (V : TypeId) : outcome (denote V) :=
  match nodes d !! id with
  | None => OutOfBounds
  | Some nd => any_cast V (output nd)
  end.

(** The body of [operator[]]: the expression [nodes[id]], which denotes
    the whole [Node] (payload and port). *)
Definition index_body (d : DAG) (id : NodeID) : option Node := nodes d !! id.

(** The operations a caller performs on a graph outside a pass. *)
Inductive op : Type :=
| OpAddNode (x : Payload)
| OpAddEdge (from to : NodeID)
| OpReset
| OpSetPort (id : NodeID) (value : any).

Definition apply_op (d : DAG) (o : op) : option DAG :=
  match o with
  | OpAddNode x => Some (snd (add_node d x))
  | OpAddEdge from to => Some (add_edge d from to)
  | OpReset => Some (reset d)
  | OpSetPort id value => set_port_value d id value
  end.

Fixpoint apply_ops (d : DAG) (os : list op) : option DAG :=
  match os with
  | [] => Some d
  | o :: os' =>
      match apply_op d o with
      | Some d' => apply_ops d' os'
      | None => None
      end
  end.

Definition sets_port (id : NodeID) (o : op) : bool :=
  match o with
  | OpSetPort id' _ => bool_decide (id' = id)
  | _ => false
  end.

End Store.

(** ** Invariants of the graph store *)

Section StoreInvariants.
Context `{Params}.

(** [adj[u]], empty for a handle that is not in the graph. *)
Definition succs_of (d : DAG) (u : NodeID) : list NodeID :=
  default [] (adj d !! u).

(** Number of edges into [v]: occurrences of [v] in the successor lists
    of the nodes. *)
Definition indegree (d : DAG) (v : NodeID) : nat :=
  total (fun u => occ v (succs_of d u)) (seq 0 (length (nodes d))).

(** What [add_node] and [add_edge] maintain as long as no node has more
    than [INT_MAX] edges into it: the three vectors have the same length,
    successors are handles of the graph, and the static in-degree of a node
    is the number of edges into it. *)
Record wf_store (d : DAG) : Prop := {
  wf_adj_length : length (adj d) = length (nodes d);
  wf_base_length : length (base_indegree d) = length (nodes d);
  wf_succ_range : forall u v, v ∈ succs_of d u -> v < length (nodes d);
  wf_base : forall v, v < length (nodes d) ->
    base_indegree d !! v = Some (Z.of_nat (indegree d v))
}.

(** What [add_node] and [add_edge] maintain whatever the number of edges:
    the static in-degree of a node is the number of edges into it counted
    in a 32-bit [int]. *)
Record tallied (d : DAG) : Prop := {
  tl_adj_length : length (adj d) = length (nodes d);
  tl_base_length : length (base_indegree d) = length (nodes d);
  tl_succ_range : forall u v, v ∈ succs_of d u -> v < length (nodes d);
  tl_base : forall v, v < length (nodes d) ->
    base_indegree d !! v = Some (wrap_int (Z.of_nat (indegree d v)))
}.

(** The contents fit their C++ types: every static in-degree is an [int]
    and the node count is a [size_t]. *)
Definition fits (d : DAG) : Prop :=
  Forall (fun b => (b <= INT_MAX)%Z) (base_indegree d)
  /\ (Z.of_nat (length (nodes d)) <= SIZE_MAX)%Z.


End StoreInvariants.

(** Outcome of one scheduling step of a thread: the thread takes its next
    atomic action, is blocked (on a condition variable or a join, or has
    nothing left to do), or performs an access the language leaves
    undefined. *)
Inductive result (C : Type) : Type :=
| Next (c : C)
| Blocked
| Fault.

Arguments Next {_} c.
Arguments Blocked {_}.
Arguments Fault {_}.

(** Run a schedule: the listed threads take one step each, in order. *)
Fixpoint run_with {Th C : Type} (step : Th -> C -> result C)
    (sched : list Th) (c : C) : result C :=
  match sched with
  | [] => Next c
  | a :: sched' =>
      match step a c with
      | Next c' => run_with step sched' c'
      | Blocked => Blocked
      | Fault => Fault
      end
  end.

(** ** The thread pool *)

(** A queued [std::function<void()>]: it is identified by a label and, when
    it runs, may itself call [enqueue] on the pool (as the dispatch tasks of
    [execute_parallel] do); [spawns] lists the tasks it enqueues, in order. *)
#[local] Unset Elimination Schemes.
Inductive task : Type :=
| Task (label : nat) (spawns : list task).
#[local] Set Elimination Schemes.

Definition task_label (t : task) : nat := match t with Task l _ => l end.
Definition task_spawns (t : task) : list task := match t with Task _ s => s end.

(** Program point of a worker thread in the loop of the constructor's lambda. *)
Inductive pworker : Type :=
| PWait                                   (* at [cv.wait], holding no task *)
| PRun (label : nat) (todo : list task)   (* inside [task()], [todo] still to enqueue *)
| PExited.                                (* returned from the lambda *)

(** Program point of the thread that runs [~ThreadPool]. *)
Inductive dtor : Type :=
| DLive                (* destructor not yet entered *)
| DJoin (k : nat)      (* [stop] set and notified; joining [workers[k]] *)
| DDone.               (* destructor finished *)

Inductive pevent : Type :=
| PEnqueued (label : nat)
| PStopped
| PStarted (k : nat) (label : nat)
| PFinished (k : nat) (label : nat)
| PExit (k : nat)
| PJoined (k : nat).

(** The members of [ThreadPool], the program points of its threads and the
    history of what happened (newest event first). *)
Record pool : Type := mkPool {
  workers : list pworker;
  tasks : list task;
  stop : bool;
  destructor : dtor;
  history : list pevent
}.

(** The constructor's loop [for (i = 0; i < threads; ++i)
    workers.emplace_back(...)]. *)
Fixpoint spawn_workers (threads : nat) (ws : list pworker) : list pworker :=
  match threads with
  | 0 => ws
  | S threads' => spawn_workers threads' (ws ++ [PWait])
  end.

(** [ThreadPool(threads)] *)
Definition ThreadPool (threads : nat) : pool :=
  {| workers := spawn_workers threads []; tasks := []; stop := false;
     destructor := DLive; history := [] |}.

(** [ThreadPool()] with the default argument
    [std::thread::hardware_concurrency()], whose value is a parameter. *)
Definition ThreadPool_default (hardware_concurrency : nat) : pool :=
  ThreadPool hardware_concurrency.

(** [enqueue(f)] *)
Definition enqueue (t : task) (p : pool) : pool :=
  {| workers := workers p; tasks := tasks p ++ [t]; stop := stop p;
     destructor := destructor p;
     history := PEnqueued (task_label t) :: history p |}.

Definition set_worker (k : nat) (w : pworker) (e : list pevent) (p : pool) : pool :=
  {| workers := <[k := w]> (workers p); tasks := tasks p; stop := stop p;
     destructor := destructor p; history := e ++ history p |}.

Inductive pthread : Type :=
| PClient (t : task)   (* a thread outside the pool calls [enqueue(t)] *)
| PWorker (k : nat)    (* worker [k] takes its next step *)
| PDestructor.         (* the destroying thread takes its next step *)

(** One atomic action of the worker loop
    [[
      cv.wait(lock, [this] { return stop || !tasks.empty(); });
      if (stop && tasks.empty()) return;
      task = std::move(tasks.front()); tasks.pop();
      task();
    ]] *)
Definition worker_step (k : nat) (p : pool) : result pool :=
  match workers p !! k with
  | None => Blocked
  | Some PExited => Blocked
  | Some PWait =>
      match tasks p with
      | t :: rest =>
          Next {| workers := <[k := PRun (task_label t) (task_spawns t)]> (workers p);
                  tasks := rest; stop := stop p; destructor := destructor p;
                  history := PStarted k (task_label t) :: history p |}
      | [] =>
          if stop p then Next (set_worker k PExited [PExit k] p) else Blocked
      end
  | Some (PRun l (t :: todo)) => Next (set_worker k (PRun l todo) [] (enqueue t p))
  | Some (PRun l []) => Next (set_worker k PWait [PFinished k l] p)
  end.

(** One atomic action of [~ThreadPool]: set [stop] and notify, then join the
    workers in order; [join] blocks until the worker has returned. *)
Definition destructor_step (p : pool) : result pool :=
  match destructor p with
  | DLive =>
      Next {| workers := workers p; tasks := tasks p; stop := true;
              destructor := DJoin 0; history := PStopped :: history p |}
  | DJoin k =>
      match workers p !! k with
      | None =>
          Next {| workers := workers p; tasks := tasks p; stop := stop p;
                  destructor := DDone; history := history p |}
      | Some PExited =>
          Next {| workers := workers p; tasks := tasks p; stop := stop p;
                  destructor := DJoin (S k); history := PJoined k :: history p |}
      | Some _ => Blocked
      end
  | DDone => Blocked
  end.

Definition pool_step (a : pthread) (p : pool) : result pool :=
  match a with
  | PClient t =>
      match destructor p with
      | DDone => Fault
      | _ => Next (enqueue t p)
      end
  | PWorker k => worker_step k p
  | PDestructor => destructor_step p
  end.

Definition run_pool : list pthread -> pool -> result pool := run_with pool_step.

(** A task labelled [lab] is started although it was enqueued after the
    stop signal: reading the history from the newest event, a start of
    [lab], then its enqueue, then the stop signal. *)
Definition runs_after_stop (h : list pevent) (lab : nat) : Prop :=
  exists k l1 l2 l3 l4,
    h = l1 ++ PStarted k lab :: l2 ++ PEnqueued lab :: l3 ++ PStopped :: l4
    /\ ~ In (PEnqueued lab) l4.

Definition is_started (e : pevent) : bool :=
  match e with PStarted _ _ => true | _ => false end.

(** The starts of tasks recorded in a history. *)
Definition started (h : list pevent) : list pevent := filter is_started h.

(** Number of tasks worker [k] has started, and has finished. *)
Definition started_by (k : nat) (h : list pevent) : nat :=
  total (fun e => match e with
                  | PStarted k' _ => if decide (k' = k) then 1 else 0
                  | _ => 0
                  end) h.

Definition finished_by (k : nat) (h : list pevent) : nat :=
  total (fun e => match e with
                  | PFinished k' _ => if decide (k' = k) then 1 else 0
                  | _ => 0
                  end) h.

Definition running (w : option pworker) : nat :=
  match w with Some (PRun _ _) => 1 | _ => 0 end.

(** What holds of a pool in every state it reaches: a joined worker has
    returned, and a worker has finished every task it started except the
    one it is running. *)
Record pool_inv (p : pool) : Prop := {
  pi_joined : forall k, In (PJoined k) (history p) -> workers p !! k = Some PExited;
  pi_tasks : forall k,
    started_by k (history p) = finished_by k (history p) + running (workers p !! k)
}.

(** A pool with one worker; the worker is running task 1 when the pool is
    destroyed, and task 1 then enqueues task 2.  At the end of
    [stop_schedule] the worker is back at its wait and task 2 is queued; in
    [late_schedule] the worker takes one more step. *)
Definition stop_schedule : list pthread :=
  [PClient (Task 1 [Task 2 []]); PWorker 0; PDestructor; PWorker 0; PWorker 0].

Definition late_schedule : list pthread := stop_schedule ++ [PWorker 0].

(** ** The execution engine: one pass of [execute_parallel] *)

(** Program point of a pool worker during a pass.  A queued task is the
    closure [[&dispatch, v] { dispatch(v); }], represented by [v]. *)
Inductive wstate : Type :=
| WWait                                        (* at [cv.wait], no task *)
| WCall (u : NodeID)                           (* [dispatch(u)] entered *)
| WExec (u : NodeID)                           (* inside [executor(u, nodes[u].data)] *)
| WResolve (u : NodeID) (vs : list NodeID)     (* in [for (v : adj[u])], [vs] still to visit *)
| WSubmit (u v : NodeID) (vs : list NodeID)    (* [fetch_sub] returned 1; before [pool.enqueue] *)
| WNotify.                                     (* [remaining.fetch_sub] returned 1; before [lock_guard lk(wait_mtx)] *)

(** Program point of the thread that called [execute_parallel]. *)
Inductive mstate : Type :=
| MSeed (i : nat)   (* in the seeding loop, at index [i] *)
| MWait             (* at [wait_cv.wait] *)
| MReturned.        (* [execute_parallel] has returned *)

(** What happens during a pass. *)
Inductive event : Type :=
| EvSubmit (v : NodeID)       (* [pool.enqueue] of the dispatch task of [v] *)
| EvStart (u : NodeID)        (* the work function is called for [u] *)
| EvFinish (u : NodeID)       (* the work function returns for [u] *)
| EvDec (u v : NodeID)        (* [dispatch(u)] does [current_indegree[v].fetch_sub(1)] *)
| EvRetire (u : NodeID).      (* [dispatch(u)] does [remaining.fetch_sub(1)] *)

#[global] Instance event_eq_dec : EqDecision event.
Proof. solve_decision. Defined.

#[global] Instance wstate_eq_dec : EqDecision wstate.
Proof. solve_decision. Defined.

#[global] Instance mstate_eq_dec : EqDecision mstate.
Proof. solve_decision. Defined.

Inductive thread : Type :=
| Caller
| Worker (k : nat).

Section Engine.
Context `{Params}.

(** The work function [executor]: called for node [u] it may read the
    ports of the graph and it returns the new content of node [u] (the
    payload, changed through the reference [T&], and the port of [u],
    changed through [set_port_value(u, ...)]). *)
Variable executor : NodeID -> list Node -> Node -> Node.

(** The graph, the pool's queue and workers, the calling thread and the
    trace of the pass (newest event first). *)
Record config : Type := mkConfig {
  graph : DAG;
  queue : list NodeID;
  threads : list wstate;
  caller : mstate;
  trace : list event
}.

Definition with_counters (d : DAG) (cur : list Z) (rem : Z) : DAG :=
  {| nodes := nodes d; adj := adj d; base_indegree := base_indegree d;
     current_indegree := cur; remaining := rem |}.

Definition with_nodes (d : DAG) (ns : list Node) : DAG :=
  {| nodes := ns; adj := adj d; base_indegree := base_indegree d;
     current_indegree := current_indegree d; remaining := remaining d |}.

(** Entry of [execute_parallel(pool, executor)] with an idle pool of
    [pool_size] workers: [if (nodes.empty()) return; reset();] *)
Definition execute_parallel (pool_size : nat) (d : DAG) : config :=
  match nodes d with
  | [] =>
      {| graph := d; queue := []; threads := replicate pool_size WWait;
         caller := MReturned; trace := [] |}
  | _ :: _ =>
      {| graph := reset d; queue := []; threads := replicate pool_size WWait;
         caller := MSeed 0; trace := [] |}
  end.

(** One atomic action of the calling thread: an iteration of
    [[
      for (NodeID i = 0; i < nodes.size(); ++i)
        if (base_indegree[i] == 0) pool.enqueue([&dispatch, i] { dispatch(i); });
    ]]
    or the wait [wait_cv.wait(lk, [this] { return remaining.load() == 0; })]. *)
Definition caller_step (c : config) : result config :=
  match caller c with
  | MSeed i =>
      if i <? length (nodes (graph c)) then
        match base_indegree (graph c) !! i with
        | None => Fault
        | Some b =>
            if (b =? 0)%Z then
              Next {| graph := graph c; queue := queue c ++ [i];
                      threads := threads c; caller := MSeed (S i);
                      trace := EvSubmit i :: trace c |}
            else
              Next {| graph := graph c; queue := queue c;
                      threads := threads c; caller := MSeed (S i);
                      trace := trace c |}
        end
      else
        Next {| graph := graph c; queue := queue c; threads := threads c;
                caller := MWait; trace := trace c |}
  | MWait =>
      if (remaining (graph c) =? 0)%Z then
        Next {| graph := graph c; queue := queue c; threads := threads c;
                caller := MReturned; trace := trace c |}
      else Blocked
  | MReturned => Blocked
  end.

(** One atomic action of worker [k]: take a task from the queue, or the
    next action of the body of [dispatch]:
    [[
      executor(u, nodes[u].data);
      for (NodeID v : adj[u])
        if (current_indegree[v].fetch_sub(1) == 1)
          pool.enqueue([&dispatch, v] { dispatch(v); });
      if (remaining.fetch_sub(1) == 1) {
        std::lock_guard<std::mutex> lk(wait_mtx);
        wait_cv.notify_all();
      }
    ]]
    [wait_mtx] and [wait_cv] are local variables of [execute_parallel]:
    they are gone once it has returned, and locking the one and notifying
    the other is then undefined. *)
Definition engine_worker_step (k : nat) (c : config) : result config :=
  let g := graph c in
  match threads c !! k with
  | None => Blocked
  | Some WWait =>
      match queue c with
      | [] => Blocked
      | u :: q =>
          Next {| graph := g; queue := q; threads := <[k := WCall u]> (threads c);
                  caller := caller c; trace := trace c |}
      end
  | Some (WCall u) =>
      match nodes g !! u with
      | None => Fault
      | Some _ =>
          Next {| graph := g; queue := queue c;
                  threads := <[k := WExec u]> (threads c);
                  caller := caller c; trace := EvStart u :: trace c |}
      end
  | Some (WExec u) =>
      match nodes g !! u, adj g !! u with
      | Some nd, Some succs =>
          Next {| graph := with_nodes g (<[u := executor u (nodes g) nd]> (nodes g));
                  queue := queue c;
                  threads := <[k := WResolve u succs]> (threads c);
                  caller := caller c; trace := EvFinish u :: trace c |}
      | _, _ => Fault
      end
  | Some (WResolve u (v :: vs)) =>
      match current_indegree g !! v with
      | None => Fault
      | Some old =>
          Next {| graph := with_counters g
                             (<[v := wrap_int (old - 1)]> (current_indegree g))
                             (remaining g);
                  queue := queue c;
                  threads := <[k := if (old =? 1)%Z then WSubmit u v vs
                                    else WResolve u vs]> (threads c);
                  caller := caller c; trace := EvDec u v :: trace c |}
      end
  | Some (WSubmit u v vs) =>
      Next {| graph := g; queue := queue c ++ [v];
              threads := <[k := WResolve u vs]> (threads c);
              caller := caller c; trace := EvSubmit v :: trace c |}
  | Some (WResolve u []) =>
      Next {| graph := with_counters g (current_indegree g)
                         (wrap_size (remaining g - 1));
              queue := queue c;
              threads := <[k := if (remaining g =? 1)%Z then WNotify
                                else WWait]> (threads c);
              caller := caller c; trace := EvRetire u :: trace c |}
  | Some WNotify =>
      match caller c with
      | MReturned => Fault
      | _ =>
          Next {| graph := g; queue := queue c;
                  threads := <[k := WWait]> (threads c);
                  caller := caller c; trace := trace c |}
      end
  end.

Definition step (a : thread) (c : config) : result config :=
  match a with
  | Caller => caller_step c
  | Worker k => engine_worker_step k c
  end.

Definition run : list thread -> config -> result config := run_with step.





End Engine.

(** ** Bookkeeping of a pass

    Counts read off the trace and off the program points of the workers;
    the invariant of the dispatch protocol relates them to the counters. *)

(** How often each kind of event occurred for a node. *)
Definition submitted (t : list event) (v : NodeID) : nat :=
  total (fun e => match e with
                  | EvSubmit v' => if decide (v' = v) then 1 else 0
                  | _ => 0 end) t.

Definition started_n (t : list event) (u : NodeID) : nat :=
  total (fun e => match e with
                  | EvStart u' => if decide (u' = u) then 1 else 0
                  | _ => 0 end) t.

Definition finished_n (t : list event) (u : NodeID) : nat :=
  total (fun e => match e with
                  | EvFinish u' => if decide (u' = u) then 1 else 0
                  | _ => 0 end) t.

Definition retired (t : list event) (u : NodeID) : nat :=
  total (fun e => match e with
                  | EvRetire u' => if decide (u' = u) then 1 else 0
                  | _ => 0 end) t.

Definition decremented (t : list event) (u v : NodeID) : nat :=
  total (fun e => match e with
                  | EvDec u' v' =>
                      if decide (u' = u) then if decide (v' = v) then 1 else 0
                      else 0
                  | _ => 0 end) t.


(** Worker [w] holds the dispatch task of [u]. *)
Definition on_node (u : NodeID) (w : wstate) : nat :=
  match w with
  | WWait | WNotify => 0
  | WCall u' | WExec u' | WResolve u' _ | WSubmit u' _ _ =>
      if decide (u' = u) then 1 else 0
  end.

(** Worker [w] has called the work function for [u]. *)
Definition has_started (u : NodeID) (w : wstate) : nat :=
  match w with
  | WExec u' | WResolve u' _ | WSubmit u' _ _ => if decide (u' = u) then 1 else 0
  | _ => 0
  end.

(** Worker [w] has returned from the work function for [u]. *)
Definition has_finished (u : NodeID) (w : wstate) : nat :=
  match w with
  | WResolve u' _ | WSubmit u' _ _ => if decide (u' = u) then 1 else 0
  | _ => 0
  end.

(** Decrements of the counter of [v] that worker [w] has still to do. *)
Definition owes (v : NodeID) (w : wstate) : nat :=
  match w with
  | WResolve _ vs | WSubmit _ _ vs => occ v vs
  | _ => 0
  end.

(** The same, when [w] holds the dispatch task of [u]. *)
Definition owes_from (u v : NodeID) (w : wstate) : nat :=
  match w with
  | WResolve u' vs | WSubmit u' _ vs => if decide (u' = u) then occ v vs else 0
  | _ => 0
  end.

(** Worker [w] is about to enqueue the dispatch task of [v]. *)
Definition submitting (v : NodeID) (w : wstate) : nat :=
  match w with
  | WSubmit _ v' _ => if decide (v' = v) then 1 else 0
  | _ => 0
  end.

(** The seeding loop has passed index [v]. *)
Definition seeded (m : mstate) (v : NodeID) : bool :=
  match m with
  | MSeed i => v <? i
  | _ => true
  end.

Section PassInvariant.
Context `{Params}.

(** The graph at the start of the pass, after [reset()]. *)
Variable d0 : DAG.

(** Edges into [v] whose source has not yet returned from the work
    function. *)
Definition unresolved (t : list event) (v : NodeID) : nat :=
  total (fun u => if decide (finished_n t u = 0) then occ v (succs_of d0 u) else 0)
        (seq 0 (length (nodes d0))).

(** Decrements of the counter of [v] still to come. *)
Definition pending (c : config) (v : NodeID) : nat :=
  unresolved (trace c) v + total (owes v) (threads c).

(** A worker's program point is consistent with the graph. *)
Definition worker_ok (w : wstate) : Prop :=
  match w with
  | WWait | WNotify => True
  | WCall u | WExec u => u < length (nodes d0)
  | WResolve u vs =>
      u < length (nodes d0) /\ exists pre, succs_of d0 u = pre ++ vs
  | WSubmit u v vs =>
      u < length (nodes d0) /\ exists pre, succs_of d0 u = pre ++ v :: vs
  end.

(** An event concerns nodes of the graph. *)
Definition event_ok (e : event) : Prop :=
  match e with
  | EvSubmit u | EvStart u | EvFinish u | EvRetire u => u < length (nodes d0)
  | EvDec u v => u < length (nodes d0) /\ v < length (nodes d0)
  end.

(** Every start of the work function in the trace comes after the return
    of the work function of every predecessor, and after all the
    decrements these predecessors owe the node. *)
Fixpoint ordered (t : list event) : Prop :=
  match t with
  | [] => True
  | e :: older =>
      match e with
      | EvStart v =>
          forall u, u < length (nodes d0) -> v ∈ succs_of d0 u ->
            In (EvFinish u) older
            /\ decremented older u v = occ v (succs_of d0 u)
      | _ => True
      end
      /\ ordered older
  end.

(** The invariant of the dispatch protocol. *)
Record pass_inv (c : config) : Prop := {
  pi_adj : adj (graph c) = adj d0;
  pi_base : base_indegree (graph c) = base_indegree d0;
  pi_nodes : length (nodes (graph c)) = length (nodes d0);
  pi_cur_length : length (current_indegree (graph c)) = length (nodes d0);
  pi_nonempty : 0 < length (nodes d0);
  pi_workers : Forall worker_ok (threads c);
  pi_queue : Forall (fun u => u < length (nodes d0)) (queue c);
  pi_place : forall u,
    submitted (trace c) u
    = occ u (queue c) + total (on_node u) (threads c) + retired (trace c) u;
  pi_once : forall u, submitted (trace c) u <= 1;
  pi_started : forall u,
    started_n (trace c) u
    = total (has_started u) (threads c) + retired (trace c) u;
  pi_finished : forall u,
    finished_n (trace c) u
    = total (has_finished u) (threads c) + retired (trace c) u;
  pi_counter : forall v, v < length (nodes d0) ->
    current_indegree (graph c) !! v = Some (Z.of_nat (pending c v));
  pi_bound : Forall (fun x => (x <= INT_MAX)%Z) (current_indegree (graph c));
  pi_dec : forall u v, u < length (nodes d0) ->
    decremented (trace c) u v + total (owes_from u v) (threads c)
    = if decide (finished_n (trace c) u = 0) then 0 else occ v (succs_of d0 u);
  pi_seed : forall v, v < length (nodes d0) -> indegree d0 v = 0 ->
    submitted (trace c) v = if seeded (caller c) v then 1 else 0;
  pi_ready : forall v, v < length (nodes d0) -> indegree d0 v <> 0 ->
    submitted (trace c) v + total (submitting v) (threads c)
    = if decide (pending c v = 0) then 1 else 0;
  pi_remaining :
    remaining (graph c)
    = (Z.of_nat (length (nodes d0))
       - Z.of_nat (total (retired (trace c)) (seq 0 (length (nodes d0)))))%Z;
  pi_caller :
    match caller c with
    | MSeed i => i <= length (nodes d0)
    | MWait => True
    | MReturned => remaining (graph c) = 0%Z
    end;
  pi_order : ordered (trace c);
  pi_events : Forall event_ok (trace c)
}.

(** *** Termination measure

    A bound on the number of atomic actions a pass has still to take: what
    is left of the dispatch task a worker holds, the whole dispatch task of
    every node that is queued or not yet submitted, and what is left of
    [execute_parallel] itself. *)





End PassInvariant.

(** ** The sample program

    The graph of the sample [main]: payloads are names, ports hold [int]s. *)

Inductive sample_type : Type := TInt | TString.

#[global] Instance sample_type_eq_dec : EqDecision sample_type.
Proof. solve_decision. Defined.

#[global] Instance sample_params : Params :=
  {| Payload := string;
     TypeId := sample_type;
     denote := fun t => match t with TInt => Z | TString => string end |}.

Definition diamond_ops : list op :=
  [OpAddNode "InputReader"; OpAddNode "WorkerA"; OpAddNode "WorkerB";
   OpAddNode "Aggregator";
   OpAddEdge 0 1; OpAddEdge 0 2; OpAddEdge 1 3; OpAddEdge 2 3].

Definition diamond : DAG :=
  default (new_dag 0) (apply_ops (new_dag 0) diamond_ops).

(** The port of node [id] read as an [int], 0 when the read fails. *)
Definition port_int (ns : list Node) (id : NodeID) : Z :=
  match get_port_value (with_nodes (new_dag 0) ns) id TInt with
  | Value z => z
  | _ => 0%Z
  end.

(** The work function of the sample [main]. *)
Definition sample_executor (id : NodeID) (ns : list Node) (nd : Node) : Node :=
  if String.eqb (data nd) "InputReader" then
    mkNode (data nd) (AnyVal TInt 100%Z)
  else if String.eqb (data nd) "WorkerA" then
    mkNode (data nd) (AnyVal TInt (port_int ns 0%nat + 50)%Z)
  else if String.eqb (data nd) "WorkerB" then
    mkNode (data nd) (AnyVal TInt (port_int ns 0%nat * 2)%Z)
  else nd.

(** A schedule of the sample pass on a pool of two workers in which the two
    middle nodes run concurrently and both decrement the last node; the
    caller returns while worker 1 has still to notify it. *)
Definition diamond_schedule : list thread :=
  [Caller; Worker 0; Caller; Worker 0; Worker 0; Caller; Worker 0; Worker 0;
   Caller; Worker 0; Worker 0; Caller; Worker 0; Worker 1; Worker 0; Worker 1;
   Worker 1; Worker 0; Worker 0; Worker 1; Worker 1; Worker 0; Worker 0;
   Worker 1; Worker 0; Worker 1; Worker 1; Worker 1; Caller].

(** The configuration the sample pass ends in under that schedule. *)
Definition diamond_final : config :=
  match run sample_executor diamond_schedule (execute_parallel 2 diamond) with
  | Next c => c
  | _ => execute_parallel 2 diamond
  end.

(** The pool that [stop_schedule] ends in. *)
Definition stopped_pool : pool :=
  match run_pool stop_schedule (ThreadPool 1) with
  | Next p => p
  | _ => ThreadPool 1
  end.

(** * Further definitions

    Notions used by the additional properties of the store, the pool and a
    pass. *)

(** Sum of a vector of [int]s. *)
Definition Zsum (l : list Z) : Z := foldr Z.add 0%Z l.

Section StoreExtras.
Context `{Params}.

Definition is_add_node (o : op) : bool :=
  match o with OpAddNode _ => true | _ => false end.

(** Number of [add_node] calls in a sequence of operations. *)
Definition add_node_count (os : list op) : nat :=
  total (fun o => if is_add_node o then 1 else 0) os.

(** Number of edges stored in the successor lists. *)
Definition edge_count (d : DAG) : nat := total length (adj d).

End StoreExtras.

(** ** Orders of events in the history of a pool *)

(** Labels of the tasks enqueued, newest first. *)
Fixpoint enqueued_labels (h : list pevent) : list nat :=
  match h with
  | [] => []
  | PEnqueued l :: h' => l :: enqueued_labels h'
  | _ :: h' => enqueued_labels h'
  end.

(** Labels of the tasks started, newest first. *)
Fixpoint started_labels (h : list pevent) : list nat :=
  match h with
  | [] => []
  | PStarted _ l :: h' => l :: started_labels h'
  | _ :: h' => started_labels h'
  end.

(** How far the destructor has come agrees with the workers: it has set
    [stop] exactly when it has been entered, a worker has returned only
    after that, the workers already joined have returned, and the number of
    workers is the one the pool was built with. *)
Record shutdown_inv (n : nat) (p : pool) : Prop := {
  sd_size : length (workers p) = n;
  sd_stop : stop p = true <-> destructor p <> DLive;
  sd_event : In PStopped (history p) <-> destructor p <> DLive;
  sd_live : stop p = false -> Forall (fun w => w <> PExited) (workers p);
  sd_joined :
    match destructor p with
    | DLive => True
    | DJoin j => forall k, k < j -> workers p !! k = Some PExited
    | DDone => Forall (fun w => w = PExited) (workers p)
    end
}.

(** ** Further counts on the trace of a pass *)



(** ** The data flow of the sample program *)

(** The port of node [u] of the sample graph, which its work function sets
    to [z]: empty until that work function has returned. *)
Definition port_after (t : list event) (u : NodeID) (z : Z) : any :=
  if decide (finished_n t u = 0) then AnyEmpty else AnyVal TInt z.

(** The nodes of the sample graph when the trace of the pass is [t]. *)
Definition diamond_nodes (t : list event) : list Node :=
  [mkNode "InputReader" (port_after t 0 100);
   mkNode "WorkerA" (port_after t 1 150);
   mkNode "WorkerB" (port_after t 2 200);
   mkNode "Aggregator" AnyEmpty].

(** ** Further sample runs *)

(** The pool of [late_schedule] brought to the end of its destruction: the
    worker finishes task 2, finds the queue empty and returns, and the
    destructor joins it. *)
Definition shutdown_schedule : list pthread :=
  late_schedule ++ [PWorker 0; PWorker 0; PDestructor; PDestructor].

Definition destroyed_pool : pool :=
  match run_pool shutdown_schedule (ThreadPool 1) with
  | Next p => p
  | _ => ThreadPool 1
  end.

(** A pool without workers that was handed one task. *)
Definition idle_pool : pool :=
  match run_pool [PClient (Task 1 [])] (ThreadPool 0) with
  | Next p => p
  | _ => ThreadPool 0
  end.




(** The sample pass handed to a pool without workers, after the seeding
    loop. *)
Definition diamond_unserved : config :=
  match run sample_executor [Caller; Caller; Caller; Caller; Caller]
          (execute_parallel 0 diamond) with
  | Next c => c
  | _ => execute_parallel 0 diamond
  end.



(** The sample graph after a write to the port of its first node. *)
Definition diamond_written : DAG :=
  default diamond (set_port_value diamond 0 (AnyVal TInt 7%Z)).

(** A hub with [n] parallel edges to one sink, and the calls that build
    it. *)
Definition fan_in_ops (n : nat) : list op :=
  [OpAddNode "Hub"; OpAddNode "Sink"] ++ replicate n (OpAddEdge 0 1).

Definition fan_in (n : nat) : DAG :=
  {| nodes := [mkNode "Hub" AnyEmpty; mkNode "Sink" AnyEmpty];
     adj := [replicate n 1; []];
     base_indegree := [0%Z; Z.of_nat n];
     current_indegree := [];
     remaining := 0%Z |}.

(** * Theorems *)

(** ** Sums over lists *)

Section Total.
Context {A : Type}.
Implicit Types (f g : A -> nat) (l : list A).

Lemma total_app f l1 l2 : total f (l1 ++ l2) = total f l1 + total f l2.
Proof. induction l1 as [|x l1 IH]; simpl; lia. Qed.

Lemma total_ext f g l :
  (forall x, x ∈ l -> f x = g x) -> total f l = total g l.
Proof.
  induction l as [|x l IH]; intros Hfg; simpl; [done|].
  rewrite Hfg by left. rewrite IH; [done|]. intros y Hy. apply Hfg. by right.
Qed.

Lemma total_le f g l :
  (forall x, x ∈ l -> f x <= g x) -> total f l <= total g l.
Proof.
  induction l as [|x l IH]; intros Hfg; simpl; [done|].
  pose proof (Hfg x ltac:(left)).
  assert (total f l <= total g l) by (apply IH; intros y Hy; apply Hfg; by right).
  lia.
Qed.

Lemma total_zero f l : (forall x, x ∈ l -> f x = 0) -> total f l = 0.
Proof.
  induction l as [|x l IH]; intros Hf; simpl; [done|].
  rewrite Hf by left. apply IH. intros y Hy. apply Hf. by right.
Qed.

Lemma total_zero_inv f l x : total f l = 0 -> x ∈ l -> f x = 0.
Proof.
  induction l as [|y l IH]; simpl; intros Hz Hx.
  - by apply elem_of_nil in Hx.
  - apply elem_of_cons in Hx as [->|Hx]; [lia|]. apply IH; [lia | done].
Qed.

Lemma total_elem_le f l x : x ∈ l -> f x <= total f l.
Proof.
  induction l as [|y l IH]; simpl; intros Hx.
  - by apply elem_of_nil in Hx.
  - apply elem_of_cons in Hx as [->|Hx]; [lia|]. specialize (IH Hx). lia.
Qed.

Lemma total_lookup_le f l k w : l !! k = Some w -> f w <= total f l.
Proof. intros Hk. apply total_elem_le. by eapply list_elem_of_lookup_2. Qed.

Lemma total_insert f l k w w' :
  l !! k = Some w -> total f (<[k := w']> l) + f w = total f l + f w'.
Proof.
  revert k. induction l as [|x l IH]; intros [|k] Hk; simpl in *; try done.
  - injection Hk as ->. lia.
  - specialize (IH k Hk). lia.
Qed.

(** When [f] is below [g] everywhere, the gap at one position bounds the
    gap of the sums. *)
Lemma total_le_at f g l k w :
  l !! k = Some w -> (forall x, f x <= g x) ->
  total f l + g w <= total g l + f w.
Proof.
  revert k. induction l as [|x l IH]; intros [|k] Hk Hfg; simpl in *; try done.
  - injection Hk as ->.
    assert (total f l <= total g l) by (apply total_le; auto). lia.
  - specialize (IH k Hk Hfg). specialize (Hfg x). lia.
Qed.

Lemma total_replicate f n x : total f (replicate n x) = n * f x.
Proof. induction n as [|n IH]; simpl; lia. Qed.

Lemma total_bound f l : (forall x, x ∈ l -> f x <= 1) -> total f l <= length l.
Proof.
  intros Hf. transitivity (total (fun _ => 1) l).
  - by apply total_le.
  - clear. induction l; simpl; lia.
Qed.

(** Changing [f] at one element of a list without repetition. *)
Lemma total_update f g l x0 :
  NoDup l -> x0 ∈ l -> (forall x, x ∈ l -> x <> x0 -> f x = g x) ->
  total f l + g x0 = total g l + f x0.
Proof.
  induction l as [|y l IH]; intros Hnd Hx0 Hfg.
  - by apply elem_of_nil in Hx0.
  - apply NoDup_cons in Hnd as [Hy Hnd]. simpl.
    apply elem_of_cons in Hx0 as [->|Hx0].
    + assert (total f l = total g l) as ->; [|lia].
      apply total_ext. intros x Hx. apply Hfg; [by right|]. by intros ->.
    + rewrite (Hfg y) by (first [by left | by intros ->]).
      assert (total f l + g x0 = total g l + f x0); [|lia].
      apply IH; try done. intros x Hx. apply Hfg. by right.
Qed.

(** A sum of zeros and ones that reaches the length consists of ones. *)
Lemma total_full f l x :
  (forall y, y ∈ l -> f y <= 1) -> total f l = length l -> x ∈ l -> f x = 1.
Proof.
  induction l as [|y l IH]; simpl; intros Hf Htot Hx.
  - by apply elem_of_nil in Hx.
  - pose proof (Hf y ltac:(left)) as Hy.
    assert (total f l <= length l) as Hb
      by (apply total_bound; intros z Hz; apply Hf; by right).
    apply elem_of_cons in Hx as [->|Hx]; [lia|].
    apply IH; [|lia|done]. intros z Hz. apply Hf. by right.
Qed.

End Total.

Lemma occ_nil `{EqDecision A} (x : A) : occ x [] = 0.
Proof. done. Qed.

Lemma occ_cons `{EqDecision A} (x y : A) (l : list A) :
  occ x (y :: l) = (if decide (y = x) then 1 else 0) + occ x l.
Proof. done. Qed.

Lemma occ_app `{EqDecision A} (x : A) (l1 l2 : list A) :
  occ x (l1 ++ l2) = occ x l1 + occ x l2.
Proof. apply total_app. Qed.

Lemma occ_elem `{EqDecision A} (x : A) (l : list A) : x ∈ l <-> occ x l <> 0.
Proof.
  induction l as [|y l IH].
  - split; [by intros ?%elem_of_nil | done].
  - rewrite occ_cons, elem_of_cons, IH.
    destruct (decide (y = x)) as [->|Hne].
    + split; [lia | by left].
    + split; [intros [Heq|Hocc]; [congruence | lia] | intros Hocc; right; lia].
Qed.

(** ** The graph store *)

Section StoreFacts.
Context `{Params}.

(** *** The invariants of the store are kept by its operations *)

Lemma succs_of_ge (d : DAG) (u : NodeID) :
  length (adj d) <= u -> succs_of d u = [].
Proof. intros Hu. unfold succs_of. by rewrite lookup_ge_None_2. Qed.

Lemma wf_new_dag (r0 : Z) : wf_store (new_dag r0).
Proof.
  split; simpl; try done.
  - intros u v. rewrite succs_of_ge by (simpl; lia).
    by intros ?%elem_of_nil.
  - intros v Hv. lia.
Qed.

Lemma apply_ops_app (os1 os2 : list op) (d : DAG) :
  apply_ops d (os1 ++ os2)
  = match apply_ops d os1 with Some d' => apply_ops d' os2 | None => None end.
Proof.
  revert d. induction os1 as [|o os1 IH]; intros d; simpl; [done|].
  destruct (apply_op d o); [apply IH | done].
Qed.

Lemma succs_of_add_node (d : DAG) (x : Payload) (u : NodeID) :
  succs_of (snd (add_node d x)) u = succs_of d u.
Proof.
  unfold succs_of. simpl.
  destruct (decide (u < length (adj d))) as [Hlt|Hge].
  - by rewrite lookup_app_l.
  - rewrite lookup_app_r by lia. rewrite (lookup_ge_None_2 (adj d)) by lia.
    by destruct (u - length (adj d)) as [|[|?]].
Qed.

Lemma indegree_add_node (d : DAG) (x : Payload) (v : NodeID) :
  length (adj d) = length (nodes d) ->
  indegree (snd (add_node d x)) v = indegree d v.
Proof.
  intros Ha. unfold indegree. simpl. rewrite length_app. simpl.
  rewrite Nat.add_1_r, seq_S, total_app. simpl.
  rewrite (succs_of_add_node d x), (succs_of_ge d) by lia. unfold occ at 2. simpl.
  rewrite Nat.add_0_r. apply total_ext. intros u _.
  by rewrite (succs_of_add_node d x).
Qed.

(** No edge leads to a handle that is not yet a node. *)
Lemma indegree_fresh (d : DAG) :
  (forall u v, v ∈ succs_of d u -> v < length (nodes d)) ->
  indegree d (length (nodes d)) = 0.
Proof.
  intros Hr. apply total_zero. intros u _.
  destruct (decide (occ (length (nodes d)) (succs_of d u) = 0)) as [|Hne]; [done|].
  apply occ_elem, Hr in Hne. lia.
Qed.

Lemma wf_add_node (d : DAG) (x : Payload) :
  wf_store d -> wf_store (snd (add_node d x)).
Proof.
  intros [Ha Hb Hr Hi].
  split; simpl.
  - rewrite !length_app. simpl. lia.
  - rewrite !length_app. simpl. lia.
  - intros u v Hv. rewrite (succs_of_add_node d x) in Hv. apply Hr in Hv.
    rewrite length_app. simpl. lia.
  - intros v Hv. rewrite length_app in Hv. simpl in Hv.
    rewrite (indegree_add_node d x) by done.
    destruct (decide (v < length (nodes d))) as [Hlt|Hge].
    + rewrite lookup_app_l by lia. by apply Hi.
    + assert (v = length (nodes d)) as -> by lia.
      rewrite lookup_app_r, Hb, Nat.sub_diag by lia. simpl.
      by rewrite indegree_fresh.
Qed.

Lemma succs_of_add_edge (d : DAG) (from to u : NodeID) :
  from < length (adj d) -> to < length (nodes d) -> from < length (nodes d) ->
  succs_of (add_edge d from to) u
  = if decide (u = from) then succs_of d from ++ [to] else succs_of d u.
Proof.
  intros Hf Ht Hf'. unfold succs_of, add_edge.
  apply Nat.leb_gt in Hf' as ->. apply Nat.leb_gt in Ht as ->. simpl.
  destruct (decide (u = from)) as [->|Hne].
  - rewrite list_lookup_alter_eq.
    destruct (adj d !! from) eqn:E; [done|].
    apply lookup_ge_None in E. lia.
  - by rewrite list_lookup_alter_ne.
Qed.

Lemma indegree_add_edge (d : DAG) (from to v : NodeID) :
  length (adj d) = length (nodes d) ->
  from < length (nodes d) -> to < length (nodes d) ->
  indegree (add_edge d from to) v
  = indegree d v + (if decide (to = v) then 1 else 0).
Proof.
  intros Ha Hf Ht. unfold indegree.
  assert (nodes (add_edge d from to) = nodes d) as ->.
  { unfold add_edge. by destruct (_ || _). }
  pose proof (total_update
    (fun u => occ v (succs_of (add_edge d from to) u))
    (fun u => occ v (succs_of d u))
    (seq 0 (length (nodes d))) from (NoDup_seq _ _)) as Hup.
  cbv beta in Hup.
  rewrite (succs_of_add_edge d from to from) in Hup by lia.
  rewrite decide_True in Hup by done.
  rewrite occ_app in Hup. unfold occ at 3 in Hup. simpl in Hup.
  assert (total (fun u => occ v (succs_of (add_edge d from to) u))
            (seq 0 (length (nodes d))) + occ v (succs_of d from)
          = total (fun u => occ v (succs_of d u)) (seq 0 (length (nodes d)))
            + (occ v (succs_of d from)
               + ((if decide (to = v) then 1 else 0) + 0))); [|lia].
  apply Hup.
  - apply elem_of_seq. lia.
  - intros u _ Hu. rewrite succs_of_add_edge by lia.
    by rewrite decide_False.
Qed.

(** Within the range of the type the wrap-around is the identity. *)
Lemma wrap_int_id z : (INT_MIN <= z <= INT_MAX)%Z -> wrap_int z = z.
Proof.
  unfold wrap_int, INT_MIN, INT_MAX. intros Hz.
  rewrite Z.mod_small; lia.
Qed.

Lemma wrap_size_id z : (0 <= z <= SIZE_MAX)%Z -> wrap_size z = z.
Proof.
  unfold wrap_size, SIZE_MAX. intros Hz. rewrite Z.mod_small; lia.
Qed.

(** Incrementing a wrapped count is counting one more and wrapping. *)
Lemma wrap_int_succ z : wrap_int (wrap_int z + 1) = wrap_int (z + 1).
Proof.
  unfold wrap_int.
  replace ((z - INT_MIN) `mod` 2 ^ 32 + INT_MIN + 1 - INT_MIN)%Z
    with ((z - INT_MIN) `mod` 2 ^ 32 + 1)%Z by lia.
  rewrite Zplus_mod_idemp_l.
  by replace (z + 1 - INT_MIN)%Z with (z - INT_MIN + 1)%Z by lia.
Qed.

(** An in-range [add_edge]: what it does to the three vectors. *)
Lemma add_edge_in_range (d : DAG) (from to : NodeID) :
  from < length (nodes d) -> to < length (nodes d) ->
  nodes (add_edge d from to) = nodes d
  /\ adj (add_edge d from to) = alter (fun succs => succs ++ [to]) from (adj d)
  /\ base_indegree (add_edge d from to)
     = alter (fun k => wrap_int (k + 1)) to (base_indegree d).
Proof.
  intros Hf Ht. unfold add_edge.
  apply Nat.leb_gt in Hf as ->. by apply Nat.leb_gt in Ht as ->.
Qed.

Lemma add_edge_out_of_range (d : DAG) (from to : NodeID) :
  ~ (from < length (nodes d) /\ to < length (nodes d)) ->
  add_edge d from to = d.
Proof.
  intros Hout. unfold add_edge.
  destruct (length (nodes d) <=? from) eqn:E1; [done|].
  destruct (length (nodes d) <=? to) eqn:E2; [done|].
  apply Nat.leb_gt in E1, E2. lia.
Qed.

(** [add_edge] keeps the store well formed as long as the in-degree it
    increments is below [INT_MAX]. *)
Lemma wf_add_edge (d : DAG) (from to : NodeID) :
  wf_store d -> (Z.of_nat (indegree d to) < INT_MAX)%Z ->
  wf_store (add_edge d from to).
Proof.
  intros Hwf Hmax.
  destruct (decide (from < length (nodes d) /\ to < length (nodes d)))
    as [[Hf Ht]|Hout]; [|by rewrite add_edge_out_of_range].
  destruct Hwf as [Ha Hb Hr Hi].
  destruct (add_edge_in_range d from to Hf Ht) as (Hn & Hadj & Hbase).
  split.
  - by rewrite Hadj, length_alter, Hn.
  - by rewrite Hbase, length_alter, Hn.
  - intros u v. rewrite Hn, succs_of_add_edge by lia.
    destruct (decide (u = from)) as [->|_]; [|apply Hr].
    intros [Hv| ->%list_elem_of_singleton]%elem_of_app; [by eapply Hr | done].
  - intros v Hv. rewrite Hn in Hv.
    rewrite indegree_add_edge, Hbase by done.
    destruct (decide (to = v)) as [->|Hne].
    + rewrite list_lookup_alter_eq, Hi by done. simpl. f_equal.
      rewrite wrap_int_id by (unfold INT_MIN; lia). lia.
    + rewrite list_lookup_alter_ne, Hi by done. f_equal. lia.
Qed.

(** The invariants speak of the graph structure only. *)
Lemma wf_same_structure (d d' : DAG) :
  adj d' = adj d -> base_indegree d' = base_indegree d ->
  length (nodes d') = length (nodes d) ->
  wf_store d -> wf_store d'.
Proof.
  intros Ha Hb Hn [Hal Hbl Hr Hi].
  assert (forall u, succs_of d' u = succs_of d u) as Hs
    by (intros u; unfold succs_of; by rewrite Ha).
  assert (forall v, indegree d' v = indegree d v) as Hin.
  { intros v. unfold indegree. rewrite Hn. apply total_ext. intros u _.
    by rewrite Hs. }
  split.
  - by rewrite Ha, Hn.
  - by rewrite Hb, Hn.
  - intros u v. rewrite Hs, Hn. apply Hr.
  - intros v. rewrite Hn, Hb, Hin. apply Hi.
Qed.

Lemma wf_reset (d : DAG) : wf_store d -> wf_store (reset d).
Proof. by apply wf_same_structure. Qed.

Lemma wf_set_port_value (d d' : DAG) (id : NodeID) (value : any) :
  set_port_value d id value = Some d' -> wf_store d -> wf_store d'.
Proof.
  unfold set_port_value. destruct (nodes d !! id); [|done].
  intros [= <-]. apply wf_same_structure; try done. simpl.
  apply length_insert.
Qed.

(** *** What the operations maintain whatever the number of edges *)

Lemma tallied_new_dag (r0 : Z) : tallied (new_dag r0).
Proof.
  split; simpl; try done.
  - intros u v. rewrite succs_of_ge by (simpl; lia).
    by intros ?%elem_of_nil.
  - intros v Hv. lia.
Qed.

Lemma tallied_add_node (d : DAG) (x : Payload) :
  tallied d -> tallied (snd (add_node d x)).
Proof.
  intros [Ha Hb Hr Hi].
  split; simpl.
  - rewrite !length_app. simpl. lia.
  - rewrite !length_app. simpl. lia.
  - intros u v Hv. rewrite (succs_of_add_node d x) in Hv. apply Hr in Hv.
    rewrite length_app. simpl. lia.
  - intros v Hv. rewrite length_app in Hv. simpl in Hv.
    rewrite (indegree_add_node d x) by done.
    destruct (decide (v < length (nodes d))) as [Hlt|Hge].
    + rewrite lookup_app_l by lia. by apply Hi.
    + assert (v = length (nodes d)) as -> by lia.
      rewrite lookup_app_r, Hb, Nat.sub_diag by lia. simpl.
      by rewrite indegree_fresh.
Qed.

Lemma tallied_add_edge (d : DAG) (from to : NodeID) :
  tallied d -> tallied (add_edge d from to).
Proof.
  intros Ht0.
  destruct (decide (from < length (nodes d) /\ to < length (nodes d)))
    as [[Hf Ht]|Hout]; [|by rewrite add_edge_out_of_range].
  destruct Ht0 as [Ha Hb Hr Hi].
  destruct (add_edge_in_range d from to Hf Ht) as (Hn & Hadj & Hbase).
  split.
  - by rewrite Hadj, length_alter, Hn.
  - by rewrite Hbase, length_alter, Hn.
  - intros u v. rewrite Hn, succs_of_add_edge by lia.
    destruct (decide (u = from)) as [->|_]; [|apply Hr].
    intros [Hv| ->%list_elem_of_singleton]%elem_of_app; [by eapply Hr | done].
  - intros v Hv. rewrite Hn in Hv.
    rewrite indegree_add_edge, Hbase by done.
    destruct (decide (to = v)) as [->|Hne].
    + rewrite list_lookup_alter_eq, Hi by done. simpl. f_equal.
      rewrite wrap_int_succ. f_equal. lia.
    + rewrite list_lookup_alter_ne, Hi by done. f_equal. f_equal. lia.
Qed.

Lemma tallied_same_structure (d d' : DAG) :
  adj d' = adj d -> base_indegree d' = base_indegree d ->
  length (nodes d') = length (nodes d) ->
  tallied d -> tallied d'.
Proof.
  intros Ha Hb Hn [Hal Hbl Hr Hi].
  assert (forall u, succs_of d' u = succs_of d u) as Hs
    by (intros u; unfold succs_of; by rewrite Ha).
  assert (forall v, indegree d' v = indegree d v) as Hin.
  { intros v. unfold indegree. rewrite Hn. apply total_ext. intros u _.
    by rewrite Hs. }
  split.
  - by rewrite Ha, Hn.
  - by rewrite Hb, Hn.
  - intros u v. rewrite Hs, Hn. apply Hr.
  - intros v. rewrite Hn, Hb, Hin. apply Hi.
Qed.

Lemma tallied_apply_op (d d' : DAG) (o : op) :
  tallied d -> apply_op d o = Some d' -> tallied d'.
Proof.
  intros Ht E. destruct o as [x|from to| |id value]; simpl in E.
  - injection E as <-. by apply tallied_add_node.
  - injection E as <-. by apply tallied_add_edge.
  - injection E as <-. by apply (tallied_same_structure d).
  - unfold set_port_value in E. destruct (nodes d !! id); [|done].
    injection E as <-. apply (tallied_same_structure d); try done. simpl.
    apply length_insert.
Qed.

Lemma tallied_built (os : list op) (d d' : DAG) :
  tallied d -> apply_ops d os = Some d' -> tallied d'.
Proof.
  revert d. induction os as [|o os IH]; intros d Ht Hrun; simpl in Hrun.
  - by injection Hrun as <-.
  - destruct (apply_op d o) as [d1|] eqn:E; [|done].
    apply (IH d1); [|done]. by apply (tallied_apply_op d d1 o).
Qed.

(** As long as every in-degree fits an [int], the stored counts are the
    numbers of edges. *)
Lemma tallied_wf (d : DAG) :
  tallied d ->
  (forall v, v < length (nodes d) -> (Z.of_nat (indegree d v) <= INT_MAX)%Z) ->
  wf_store d.
Proof.
  intros [Ha Hb Hr Hi] Hmax. split; try done.
  intros v Hv. rewrite Hi by done. f_equal.
  apply wrap_int_id. specialize (Hmax v Hv). unfold INT_MIN. lia.
Qed.

(** Every graph built with the operations of the store in which no node
    has more than [INT_MAX] edges into it is well formed. *)
Lemma built_wf (r0 : Z) (os : list op) (d : DAG) :
  apply_ops (new_dag r0) os = Some d ->
  (forall v, v < length (nodes d) -> (Z.of_nat (indegree d v) <= INT_MAX)%Z) ->
  wf_store d.
Proof.
  intros Hrun Hmax. apply tallied_wf; [|done].
  by apply (tallied_built os (new_dag r0) d (tallied_new_dag r0)).
Qed.

Lemma indegree_pos (d : DAG) (u v : NodeID) :
  u < length (nodes d) -> v ∈ succs_of d u -> indegree d v <> 0.
Proof.
  intros Hu Hv Hz. apply occ_elem in Hv. apply Hv.
  apply (total_zero_inv _ _ u Hz). apply elem_of_seq. lia.
Qed.

(** *** [reset] *)

Lemma store_loop_length (n : nat) (base cur : list Z) :
  length (store_loop n base cur) = length cur.
Proof.
  unfold store_loop. induction n as [|n IH]; [done|].
  rewrite seq_S, foldl_snoc, length_insert. exact IH.
Qed.

Lemma store_loop_lookup (n : nat) (base cur : list Z) (i : nat) :
  store_loop n base cur !! i =
    if decide (i < n /\ i < length cur) then Some (default 0%Z (base !! i))
    else cur !! i.
Proof.
  induction n as [|n IH].
  - rewrite decide_False by lia. done.
  - assert (store_loop (S n) base cur
            = <[n := default 0%Z (base !! n)]> (store_loop n base cur)) as ->.
    { unfold store_loop. by rewrite seq_S, foldl_snoc. }
    pose proof (store_loop_length n base cur) as Hlen.
    destruct (decide (i = n)) as [->|Hne].
    + destruct (decide (n < length cur)) as [Hlt|Hge].
      * rewrite list_lookup_insert_eq by lia.
        rewrite decide_True by lia. done.
      * rewrite list_insert_ge by lia.
        rewrite IH. rewrite !decide_False by lia. done.
    + rewrite list_lookup_insert_ne by done.
      rewrite IH. destruct (decide (i < n /\ i < length cur)).
      * rewrite decide_True by lia. done.
      * rewrite decide_False by lia. done.
Qed.

Lemma reset_counters (d : DAG) :
  length (base_indegree d) = size d ->
  current_indegree (reset d) = base_indegree d.
Proof.
  intros Hlen. unfold size in Hlen. apply list_eq. intros i. simpl.
  rewrite store_loop_lookup.
  assert (length (if decide (length (current_indegree d) = length (nodes d))
                  then current_indegree d
                  else replicate (length (nodes d)) 0%Z) = length (nodes d))
    as ->.
  { case_decide; [done | apply length_replicate]. }
  case_decide as Hi.
  - destruct (base_indegree d !! i) eqn:E; [done|].
    apply lookup_ge_None in E. lia.
  - rewrite (lookup_ge_None_2 (base_indegree d)) by lia.
    case_decide.
    + apply lookup_ge_None. lia.
    + apply lookup_replicate_None. lia.
Qed.

Lemma reset_length (d : DAG) :
  length (current_indegree (reset d)) = length (nodes d).
Proof.
  simpl. rewrite store_loop_length.
  case_decide; [done | apply length_replicate].
Qed.

Lemma reset_idempotent (d : DAG) : reset (reset d) = reset d.
Proof.
  pose proof (reset_length d) as Hlen.
  unfold reset at 1.
  change (nodes (reset d)) with (nodes d).
  change (adj (reset d)) with (adj d).
  change (base_indegree (reset d)) with (base_indegree d).
  rewrite decide_True by exact Hlen.
  unfold reset at 2. f_equal.
  apply list_eq. intros i.
  rewrite store_loop_lookup, Hlen.
  case_decide as Hi; [|done].
  unfold reset; simpl. rewrite store_loop_lookup.
  case_decide as Hj; [done|].
  exfalso. apply Hj. split; [lia|].
  case_decide as Hk; [lia | rewrite length_replicate; lia].
Qed.

(** C4: [reset()] copies the static in-degree of every node into its live
    counter and stores the node count into [remaining], whatever the
    run-state was; calling it twice is the same as calling it once. *)
Theorem reset_spec (d : DAG) :
  length (base_indegree d) = size d ->
  (forall i b, base_indegree d !! i = Some b ->
               current_indegree (reset d) !! i = Some b)
  /\ length (current_indegree (reset d)) = size d
  /\ remaining (reset d) = Z.of_nat (size d)
  /\ nodes (reset d) = nodes d
  /\ adj (reset d) = adj d
  /\ base_indegree (reset d) = base_indegree d
  /\ reset (reset d) = reset d.
Proof.
  intros Hlen. pose proof (reset_counters d Hlen) as Hc.
  repeat split; try done.
  - intros i b Hb. by rewrite Hc.
  - by rewrite Hc.
  - apply reset_idempotent.
Qed.

(** C5, as the code has it: [add_edge(from, to)] with a handle out of
    range returns the graph unchanged; with both handles in range it appends
    [to] to the successor list of [from], adds one to the static in-degree
    of [to] as long as that in-degree is below [INT_MAX], the largest value
    of the [int] that holds it, and leaves every other list, every other
    in-degree and the nodes as they were. *)
Theorem add_edge_spec (d : DAG) (from to : NodeID) :
  (size d <= from \/ size d <= to -> add_edge d from to = d)
  /\ (from < size d -> to < size d ->
      nodes (add_edge d from to) = nodes d
      /\ current_indegree (add_edge d from to) = current_indegree d
      /\ remaining (add_edge d from to) = remaining d
      /\ length (adj (add_edge d from to)) = length (adj d)
      /\ length (base_indegree (add_edge d from to)) = length (base_indegree d)
      /\ (forall succs, adj d !! from = Some succs ->
            adj (add_edge d from to) !! from = Some (succs ++ [to]))
      /\ (forall u, u <> from -> adj (add_edge d from to) !! u = adj d !! u)
      /\ (forall k, base_indegree d !! to = Some k ->
            (INT_MIN <= k < INT_MAX)%Z ->
            base_indegree (add_edge d from to) !! to = Some (k + 1)%Z)
      /\ (forall v, v <> to ->
            base_indegree (add_edge d from to) !! v = base_indegree d !! v)).
Proof.
  unfold size. split.
  - intros Hge. apply add_edge_out_of_range. lia.
  - intros Hf Ht.
    destruct (add_edge_in_range d from to Hf Ht) as (Hn & Hadj & Hbase).
    rewrite Hn, Hadj, Hbase. unfold add_edge.
    apply Nat.leb_gt in Hf as ->. apply Nat.leb_gt in Ht as ->. simpl.
    repeat split.
    + apply length_alter.
    + apply length_alter.
    + intros succs Hs. by rewrite list_lookup_alter_eq, Hs.
    + intros u Hu. by rewrite list_lookup_alter_ne.
    + intros k Hk Hrange. rewrite list_lookup_alter_eq, Hk. simpl.
      by rewrite wrap_int_id by lia.
    + intros v Hv. by rewrite list_lookup_alter_ne.
Qed.

Lemma any_cast_mismatch (V t : TypeId) (v : denote t) :
  t <> V -> any_cast V (AnyVal t v) = BadAnyCast.
Proof. intros Hne. unfold any_cast. by destruct (decide (t = V)). Qed.

(** The port of a node that no operation has written is empty. *)
Lemma unset_port_empty (os : list op) (d d' : DAG) (id : NodeID) (nd : Node) :
  (forall nd0, nodes d !! id = Some nd0 -> output nd0 = AnyEmpty) ->
  forallb (fun o => negb (sets_port id o)) os = true ->
  apply_ops d os = Some d' ->
  nodes d' !! id = Some nd ->
  output nd = AnyEmpty.
Proof.
  revert d. induction os as [|o os IH]; intros d Hd Hos Hrun Hnd.
  - simpl in Hrun. injection Hrun as <-. by apply Hd.
  - simpl in Hos, Hrun. apply andb_prop in Hos as [Ho Hos].
    destruct (apply_op d o) as [d1|] eqn:E; [|done].
    apply (IH d1); try done.
    intros nd0 Hnd0. destruct o as [x|from to| |id' value]; simpl in E.
    + injection E as <-. simpl in Hnd0.
      destruct (decide (id < length (nodes d))) as [Hlt|Hge].
      * rewrite lookup_app_l in Hnd0 by done. by apply Hd.
      * rewrite lookup_app_r in Hnd0 by lia.
        destruct (id - length (nodes d)); simpl in Hnd0; [|done].
        by injection Hnd0 as <-.
    + injection E as <-. apply Hd. revert Hnd0. unfold add_edge.
      by destruct (_ || _).
    + injection E as <-. by apply Hd.
    + unfold set_port_value in E.
      destruct (nodes d !! id') as [nd'|] eqn:E'; [|done].
      injection E as <-. simpl in Hnd0, Ho.
      apply negb_true_iff, bool_decide_eq_false in Ho.
      rewrite list_lookup_insert_ne in Hnd0 by done. by apply Hd.
Qed.

(** C6: reading a port that holds no value, or that holds a value of a
    type other than the one asked for, throws [std::bad_any_cast]: the
    call yields no value of the requested type.  In particular this is
    the outcome for an in-range handle whose port no operation has set
    since the graph was created. *)
Theorem get_port_value_fails (d : DAG) (id : NodeID) (V : TypeId) (nd : Node) :
  nodes d !! id = Some nd ->
  (output nd = AnyEmpty
   \/ (exists t v, output nd = AnyVal t v /\ t <> V)
   \/ (exists r0 os, apply_ops (new_dag r0) os = Some d
         /\ forallb (fun o => negb (sets_port id o)) os = true)) ->
  get_port_value d id V = BadAnyCast
  /\ forall v : denote V, get_port_value d id V <> Value v.
Proof.
  intros Hnd Hcase.
  assert (get_port_value d id V = BadAnyCast) as Hget.
  { unfold get_port_value. rewrite Hnd.
    destruct Hcase as [He | [(t & v & Ho & Hne) | (r0 & os & Hrun & Hos)]].
    - by rewrite He.
    - rewrite Ho. by apply any_cast_mismatch.
    - by rewrite (unset_port_empty os (new_dag r0) d id nd). }
  split; [done|]. intros v. by rewrite Hget.
Qed.

(** C7: the body of [operator[]] denotes the whole node, payload together
    with port; the payload is only one member of what it yields. *)
Theorem index_body_yields_node (d : DAG) (x : Payload) :
  index_body (snd (add_node d x)) (fst (add_node d x))
    = Some (mkNode x AnyEmpty).
Proof.
  unfold index_body. simpl.
  rewrite lookup_app_r by lia. by rewrite Nat.sub_diag.
Qed.

(** C10: neither port operation checks its handle.  For a handle at or
    beyond the node count [set_port_value] and [get_port_value] index the
    node vector out of bounds, whereas [add_edge] returns the graph
    unchanged; a port operation that is defined has a handle below the
    node count. *)
Theorem port_ops_unchecked (d : DAG) (id : NodeID) :
  (size d <= id ->
     (forall value, set_port_value d id value = None)
     /\ (forall V, get_port_value d id V = OutOfBounds)
     /\ (forall to, add_edge d id to = d)
     /\ (forall from, add_edge d from id = d))
  /\ (forall value d', set_port_value d id value = Some d' -> id < size d)
  /\ (forall V, get_port_value d id V <> OutOfBounds -> id < size d).
Proof.
  unfold size. split; [|split].
  - intros Hge. apply lookup_ge_None in Hge as Hnone.
    repeat split.
    + intros value. unfold set_port_value. by rewrite Hnone.
    + intros V. unfold get_port_value. by rewrite Hnone.
    + intros to. unfold add_edge.
      apply Nat.leb_le in Hge as ->. done.
    + intros from. unfold add_edge.
      apply Nat.leb_le in Hge as ->. by rewrite orb_true_r.
  - intros value d'. unfold set_port_value.
    destruct (nodes d !! id) eqn:E; [|done].
    intros _. by apply lookup_lt_Some in E.
  - intros V. unfold get_port_value.
    destruct (nodes d !! id) eqn:E; [|done].
    intros _. by apply lookup_lt_Some in E.
Qed.

End StoreFacts.

(** ** Schedules *)

Section Schedules.
Context {Th C : Type} (step_fn : Th -> C -> result C).

(** A property kept by every step holds after every schedule. *)
Lemma run_with_invariant (P : C -> Prop) :
  (forall a c c', P c -> step_fn a c = Next c' -> P c') ->
  forall sched c c', P c -> run_with step_fn sched c = Next c' -> P c'.
Proof.
  intros Hstep sched. induction sched as [|a sched IH]; intros c c' Hc Hrun.
  - simpl in Hrun. by injection Hrun as <-.
  - simpl in Hrun. destruct (step_fn a c) as [c1| |] eqn:E; try done.
    eapply IH; [|exact Hrun]. eapply Hstep; eauto.
Qed.

End Schedules.

(** ** The thread pool *)

Lemma spawn_workers_length (threads : nat) (ws : list pworker) :
  length (spawn_workers threads ws) = length ws + threads.
Proof.
  revert ws. induction threads as [|t IH]; intros ws; simpl; [lia|].
  rewrite IH, length_app. simpl. lia.
Qed.

Lemma spawn_workers_wait (threads : nat) (ws : list pworker) :
  Forall (fun w => w = PWait) ws ->
  Forall (fun w => w = PWait) (spawn_workers threads ws).
Proof.
  revert ws. induction threads as [|t IH]; intros ws Hws; simpl; [done|].
  apply IH. apply Forall_app. split; [done|]. by constructor.
Qed.

(** C8, as the code has it: the pool has exactly as many workers as the
    constructor's argument, which defaults to the host's hardware
    concurrency; it has a worker exactly when that number is at least 1. *)
Theorem pool_size_is_argument (threads : nat) :
  length (workers (ThreadPool threads)) = threads
  /\ length (workers (ThreadPool_default threads)) = threads
  /\ (1 <= length (workers (ThreadPool threads)) <-> 1 <= threads).
Proof.
  unfold ThreadPool_default, ThreadPool. simpl.
  rewrite spawn_workers_length. simpl. lia.
Qed.

(** C8 fails for the argument 0: the pool is built without any worker. *)
Lemma pool_of_zero_has_no_worker :
  length (workers (ThreadPool 0)) = 0
  /\ ~ (forall threads, 1 <= length (workers (ThreadPool threads))).
Proof.
  split; [reflexivity|]. intros Hall. specialize (Hall 0). simpl in Hall. lia.
Qed.

Lemma lookup_insert_cases {A : Type} (l : list A) (k0 k : nat) (w w' : A) :
  l !! k0 = Some w ->
  <[k0 := w']> l !! k = if decide (k = k0) then Some w' else l !! k.
Proof.
  intros Hw. destruct (decide (k = k0)) as [->|Hne].
  - apply list_lookup_insert_eq. by eapply lookup_lt_Some.
  - by apply list_lookup_insert_ne.
Qed.

Lemma pool_inv_init (n : nat) : pool_inv (ThreadPool n).
Proof.
  split; simpl; [done|]. intros k.
  destruct (spawn_workers n [] !! k) as [w|] eqn:E; [|done].
  pose proof (spawn_workers_wait n [] (Forall_nil_2 _)) as Hall.
  by rewrite (Forall_lookup_1 _ _ _ _ Hall E).
Qed.

Lemma pool_step_inv (a : pthread) (p p' : pool) :
  pool_inv p -> pool_step a p = Next p' -> pool_inv p'.
Proof.
  intros [Hj Ht] Hstep. destruct a as [t|k0|]; simpl in Hstep.
  - destruct (destructor p) as [|j|]; try done; injection Hstep as <-;
      (split; simpl; intros k; [intros [Heq|Hin]; [done | auto] | apply Ht]).
  - unfold worker_step in Hstep.
    destruct (workers p !! k0) as [w|] eqn:Ew; [|done].
    destruct w as [|l todo|]; [| |done].
    + destruct (tasks p) as [|t rest] eqn:Et.
      * destruct (stop p); [|done]. injection Hstep as <-.
        split; simpl; intros k; rewrite (lookup_insert_cases _ _ _ _ _ Ew).
        -- intros [Heq|Hin]; [done|]. specialize (Hj k Hin).
           destruct (decide (k = k0)) as [->|_]; [congruence | done].
        -- specialize (Ht k).
           destruct (decide (k = k0)) as [->|_]; [by rewrite Ew in Ht | done].
      * injection Hstep as <-.
        split; simpl; intros k; rewrite (lookup_insert_cases _ _ _ _ _ Ew).
        -- intros [Heq|Hin]; [done|]. specialize (Hj k Hin).
           destruct (decide (k = k0)) as [->|_]; [congruence | done].
        -- specialize (Ht k). unfold started_by, finished_by in *. simpl.
           destruct (decide (k = k0)) as [->|Hne].
           ++ rewrite Ew in Ht. rewrite decide_True by done. simpl in *. lia.
           ++ rewrite decide_False by done. simpl. lia.
    + destruct todo as [|t todo]; injection Hstep as <-.
      * split; simpl; intros k; rewrite (lookup_insert_cases _ _ _ _ _ Ew).
        -- intros [Heq|Hin]; [done|]. specialize (Hj k Hin).
           destruct (decide (k = k0)) as [->|_]; [congruence | done].
        -- specialize (Ht k). unfold started_by, finished_by in *. simpl.
           destruct (decide (k = k0)) as [->|Hne].
           ++ rewrite Ew in Ht. rewrite decide_True by done. simpl in *. lia.
           ++ rewrite decide_False by done. simpl. lia.
      * split; simpl; intros k; rewrite (lookup_insert_cases _ _ _ _ _ Ew).
        -- intros [Heq|Hin]; [done|]. specialize (Hj k Hin).
           destruct (decide (k = k0)) as [->|_]; [congruence | done].
        -- specialize (Ht k).
           destruct (decide (k = k0)) as [->|_]; [by rewrite Ew in Ht | done].
  - unfold destructor_step in Hstep. destruct (destructor p) as [|k0|]; [| |done].
    + injection Hstep as <-. split; simpl; intros k; [|apply Ht].
      intros [Heq|Hin]; [done | auto].
    + destruct (workers p !! k0) as [w|] eqn:Ew.
      * destruct w; try done. injection Hstep as <-.
        split; simpl; intros k; [|apply Ht].
        intros [Heq|Hin]; [by injection Heq as <- | auto].
      * injection Hstep as <-. split; simpl; intros k; [apply Hj | apply Ht].
Qed.

Lemma pool_reachable_inv (n : nat) (sched : list pthread) (p : pool) :
  run_pool sched (ThreadPool n) = Next p -> pool_inv p.
Proof.
  apply (run_with_invariant pool_step pool_inv).
  - intros a c c'. apply pool_step_inv.
  - apply pool_inv_init.
Qed.

(** Once every worker has returned, no step starts a task. *)
Lemma all_exited_step (a : pthread) (p p' : pool) :
  Forall (fun w => w = PExited) (workers p) ->
  pool_step a p = Next p' ->
  Forall (fun w => w = PExited) (workers p')
  /\ started (history p') = started (history p).
Proof.
  intros Hall Hstep. destruct a as [t|k0|]; simpl in Hstep.
  - destruct (destructor p); try done; by injection Hstep as <-.
  - unfold worker_step in Hstep.
    destruct (workers p !! k0) as [w|] eqn:Ew; [|done].
    by rewrite (Forall_lookup_1 _ _ _ _ Hall Ew) in Hstep.
  - unfold destructor_step in Hstep. destruct (destructor p) as [|k0|]; [| |done].
    + by injection Hstep as <-.
    + destruct (workers p !! k0) as [w|] eqn:Ew.
      * destruct w; try done. by injection Hstep as <-.
      * by injection Hstep as <-.
Qed.

Lemma all_exited_run (sched : list pthread) (p p' : pool) :
  Forall (fun w => w = PExited) (workers p) ->
  run_pool sched p = Next p' ->
  started (history p') = started (history p).
Proof.
  revert p. induction sched as [|a sched IH]; intros p Hall Hrun.
  - simpl in Hrun. by injection Hrun as <-.
  - unfold run_pool in Hrun. simpl in Hrun.
    destruct (pool_step a p) as [p1| |] eqn:E; try done.
    destruct (all_exited_step a p p1 Hall E) as [Hall1 Heq1].
    rewrite <- Heq1. by apply IH.
Qed.

(** A waiting worker takes the task at the front of the queue whether or not
    [stop] is set. *)
Lemma waiting_worker_takes (k : nat) (p : pool) (t : task) (rest : list task) :
  workers p !! k = Some PWait -> tasks p = t :: rest ->
  exists p', worker_step k p = Next p'
    /\ history p' = PStarted k (task_label t) :: history p
    /\ tasks p' = rest.
Proof.
  intros Hw Ht. unfold worker_step. rewrite Hw, Ht. eauto.
Qed.

(** A worker returns only from the wait, with [stop] set and the queue
    empty. *)
Lemma worker_exit_condition (k : nat) (p p' : pool) :
  worker_step k p = Next p' -> workers p' !! k = Some PExited ->
  workers p !! k = Some PWait /\ stop p = true /\ tasks p = [].
Proof.
  unfold worker_step. intros Hstep Hex.
  destruct (workers p !! k) as [w|] eqn:Ew; [|done].
  destruct w as [|l todo|]; [| |done].
  - destruct (tasks p) as [|t rest] eqn:Et.
    + by destruct (stop p).
    + injection Hstep as <-. simpl in Hex.
      rewrite (lookup_insert_cases _ _ _ _ _ Ew), decide_True in Hex; done.
  - destruct todo as [|t todo]; injection Hstep as <-; simpl in Hex;
      rewrite (lookup_insert_cases _ _ _ _ _ Ew), decide_True in Hex; done.
Qed.

(** C9, as the code has it: a worker keeps taking queued tasks after the
    stop signal and returns only when it waits with the queue empty, never
    from inside a task; the destructor joins a worker only once that worker
    has returned, having finished every task it started; and after all
    workers have returned nothing enqueued is ever started. *)
Theorem shutdown_drains_queue (n : nat) (sched : list pthread) (p : pool) :
  run_pool sched (ThreadPool n) = Next p ->
  (forall k t rest, workers p !! k = Some PWait -> tasks p = t :: rest ->
     exists p', worker_step k p = Next p'
       /\ history p' = PStarted k (task_label t) :: history p)
  /\ (forall k p', worker_step k p = Next p' ->
        workers p' !! k = Some PExited ->
        workers p !! k = Some PWait /\ stop p = true /\ tasks p = [])
  /\ (forall k, In (PJoined k) (history p) ->
        workers p !! k = Some PExited
        /\ started_by k (history p) = finished_by k (history p))
  /\ (Forall (fun w => w = PExited) (workers p) ->
      forall sched' p', run_pool sched' p = Next p' ->
        started (history p') = started (history p)).
Proof.
  intros Hrun. destruct (pool_reachable_inv n sched p Hrun) as [Hj Ht].
  repeat split.
  - intros k t rest Hw Hq.
    destruct (waiting_worker_takes k p t rest Hw Hq) as (p' & ? & ? & ?). eauto.
  - eapply worker_exit_condition; eauto.
  - eapply worker_exit_condition; eauto.
  - eapply worker_exit_condition; eauto.
  - by apply Hj.
  - specialize (Ht k). rewrite (Hj k) in Ht by done. simpl in Ht. lia.
  - intros Hall sched' p'. by apply all_exited_run.
Qed.

(** C9 fails on a pool of one worker that is destroyed while its worker runs
    a task: the task enqueued by that task after the stop signal is started. *)
Lemma late_task_runs :
  exists p, run_pool late_schedule (ThreadPool 1) = Next p
            /\ runs_after_stop (history p) 2.
Proof.
  eexists. split; [reflexivity|].
  exists 0, [], [PFinished 0 1], [], [PStarted 0 1; PEnqueued 1].
  split; [reflexivity|]. simpl. intros [?|[?|?]]; done.
Qed.

(** ** The execution engine *)

Lemma submitted_cons e t v :
  submitted (e :: t) v
  = (match e with EvSubmit v' => if decide (v' = v) then 1 else 0 | _ => 0 end)
    + submitted t v.
Proof. done. Qed.
Lemma started_n_cons e t v :
  started_n (e :: t) v
  = (match e with EvStart v' => if decide (v' = v) then 1 else 0 | _ => 0 end)
    + started_n t v.
Proof. done. Qed.
Lemma finished_n_cons e t v :
  finished_n (e :: t) v
  = (match e with EvFinish v' => if decide (v' = v) then 1 else 0 | _ => 0 end)
    + finished_n t v.
Proof. done. Qed.
Lemma retired_cons e t v :
  retired (e :: t) v
  = (match e with EvRetire v' => if decide (v' = v) then 1 else 0 | _ => 0 end)
    + retired t v.
Proof. done. Qed.
Lemma decremented_cons e t u v :
  decremented (e :: t) u v
  = (match e with
     | EvDec u' v' => if decide (u' = u) then if decide (v' = v) then 1 else 0 else 0
     | _ => 0 end)
    + decremented t u v.
Proof. done. Qed.



(** ** Proof automation for the counting arguments *)

(** Rewrite the sum over the workers after worker [k] changed its program
    point: [Ew] is the hypothesis giving the program point before. *)
Ltac note_insert Ew :=
  repeat match goal with
  | |- context [total ?f (<[?k := ?w']> ?ws)] =>
      let Hn := fresh "Hins" in
      pose proof (total_insert f ws k _ w' Ew) as Hn;
      cbn [on_node has_started has_finished owes owes_from submitting] in Hn;
      let x := fresh "tot" in
      set (x := total f (<[k := w']> ws)) in *; clearbody x
  end.

(** Name the components of the invariant [Hinv]. *)
Ltac open_inv Hinv :=
  pose proof (pi_adj _ _ Hinv) as Iadj;
  pose proof (pi_base _ _ Hinv) as Ibase;
  pose proof (pi_nodes _ _ Hinv) as Inodes;
  pose proof (pi_cur_length _ _ Hinv) as Icur_length;
  pose proof (pi_nonempty _ _ Hinv) as Inonempty;
  pose proof (pi_workers _ _ Hinv) as Iworkers;
  pose proof (pi_queue _ _ Hinv) as Iqueue;
  pose proof (pi_place _ _ Hinv) as Iplace;
  pose proof (pi_once _ _ Hinv) as Ionce;
  pose proof (pi_started _ _ Hinv) as Istarted;
  pose proof (pi_finished _ _ Hinv) as Ifinished;
  pose proof (pi_counter _ _ Hinv) as Icounter;
  pose proof (pi_bound _ _ Hinv) as Ibound;
  pose proof (pi_dec _ _ Hinv) as Idec;
  pose proof (pi_seed _ _ Hinv) as Iseed;
  pose proof (pi_ready _ _ Hinv) as Iready;
  pose proof (pi_remaining _ _ Hinv) as Iremaining;
  pose proof (pi_caller _ _ Hinv) as Icaller;
  pose proof (pi_order _ _ Hinv) as Iorder;
  pose proof (pi_events _ _ Hinv) as Ievents;
  clear Hinv.

Ltac trace_simpl :=
  rewrite ?submitted_cons, ?started_n_cons, ?finished_n_cons, ?retired_cons,
    ?decremented_cons; cbv beta iota.

Ltac arith := repeat case_decide; subst; try done; try lia.

Section PassFacts.
Context `{Params}.
Variable executor : nat -> list Node -> Node -> Node.
Variable d0 : DAG.
Hypothesis Hwf : wf_store d0.

Lemma Forall_insert_ok (ws : list wstate) k w :
  Forall (worker_ok d0) ws -> worker_ok d0 w -> Forall (worker_ok d0) (<[k := w]> ws).
Proof. intros. by apply Forall_insert. Qed.

(** *** Each atomic action keeps the invariant *)

(** A waiting worker pops the task at the front of the queue. *)
Lemma step_take c k u q :
  pass_inv d0 c -> threads c !! k = Some WWait -> queue c = u :: q ->
  pass_inv d0 {| graph := graph c; queue := q; threads := <[k := WCall u]> (threads c);
                  caller := caller c; trace := trace c |}.
Proof.
  intros Hinv Ew Eq.
  assert (forall v, pending d0 {| graph := graph c; queue := q;
                 threads := <[k := WCall u]> (threads c);
                 caller := caller c; trace := trace c |} v
               = pending d0 c v) as Hpend.
  { intros v. unfold pending. cbn [threads trace]. note_insert Ew. lia. }
  open_inv Hinv.
  rewrite Eq in Iqueue. apply Forall_cons in Iqueue as [Hu Hq].
  split; cbn [graph queue threads caller trace]; try done.
  - by apply Forall_insert_ok.
  - intros u'. specialize (Iplace u'). rewrite Eq, occ_cons in Iplace.
    note_insert Ew. arith.
  - intros u'. specialize (Istarted u'). note_insert Ew. arith.
  - intros u'. specialize (Ifinished u'). note_insert Ew. arith.
  - intros v Hv. rewrite Hpend. by apply Icounter.
  - intros u' v Hu'. specialize (Idec u' v Hu'). note_insert Ew. arith.
  - intros v Hv Hin. rewrite Hpend. specialize (Iready v Hv Hin).
    note_insert Ew. arith.
Qed.

(** A node counted as finished has its return in the trace. *)
Lemma finished_n_In t u : finished_n t u <> 0 -> In (EvFinish u) t.
Proof.
  induction t as [|e t IH]; [done|]. rewrite finished_n_cons.
  destruct e as [| |u'| |]; simpl; try (intros; right; apply IH; lia).
  destruct (decide (u' = u)) as [->|]; [by left|]. intros; right; apply IH; lia.
Qed.

(** The node a worker holds is held by that worker only: it is neither
    queued nor retired. *)
Lemma worker_node_once c k w u :
  pass_inv d0 c -> threads c !! k = Some w -> on_node u w = 1 ->
  total (on_node u) (threads c) = 1 /\ occ u (queue c) = 0
  /\ retired (trace c) u = 0 /\ submitted (trace c) u = 1.
Proof.
  intros Hinv Ew Hon.
  pose proof (pi_place _ _ Hinv u). pose proof (pi_once _ _ Hinv u).
  pose proof (total_lookup_le (on_node u) _ _ _ Ew). lia.
Qed.

(** When no decrement of the counter of [v] is still to come, every
    predecessor of [v] has returned from the work function and has done
    all its decrements of that counter. *)
Lemma pending_zero_preds c u v :
  pass_inv d0 c -> pending d0 c v = 0 ->
  u < length (nodes d0) -> v ∈ succs_of d0 u ->
  In (EvFinish u) (trace c)
  /\ decremented (trace c) u v = occ v (succs_of d0 u).
Proof.
  intros Hinv Hz Hu Hedge. unfold pending in Hz.
  assert (unresolved d0 (trace c) v = 0) as Hun by lia.
  assert (finished_n (trace c) u <> 0) as Hfin.
  { intros Hf.
    pose proof (total_zero_inv _ _ u Hun) as Hz0. cbv beta in Hz0.
    rewrite decide_True in Hz0 by done.
    apply occ_elem in Hedge. apply Hedge, Hz0, elem_of_seq. lia. }
  split; [by apply finished_n_In|].
  pose proof (pi_dec _ _ Hinv u v Hu) as Hdec.
  rewrite decide_False in Hdec by done.
  assert (total (owes_from u v) (threads c) <= total (owes v) (threads c)).
  { apply total_le. intros w _. destruct w; simpl; arith. }
  lia.
Qed.

(** A worker calls the work function. *)
Lemma step_begin c k u :
  pass_inv d0 c -> threads c !! k = Some (WCall u) ->
  pass_inv d0 {| graph := graph c; queue := queue c;
                 threads := <[k := WExec u]> (threads c);
                 caller := caller c; trace := EvStart u :: trace c |}.
Proof.
  intros Hinv Ew.
  destruct (worker_node_once c k _ u Hinv Ew) as (Hon & Hq & Hret & Hsub).
  { simpl. by rewrite decide_True. }
  pose proof (Forall_lookup_1 _ _ _ _ (pi_workers _ _ Hinv) Ew) as Hu.
  simpl in Hu.
  assert (forall v, pending d0 {| graph := graph c; queue := queue c;
                 threads := <[k := WExec u]> (threads c);
                 caller := caller c; trace := EvStart u :: trace c |} v
               = pending d0 c v) as Hpend.
  { intros v. unfold pending. cbn [threads trace].
    note_insert Ew. change (unresolved d0 (EvStart u :: trace c) v)
      with (unresolved d0 (trace c) v). lia. }
  pose proof Hinv as Hinv'. open_inv Hinv.
  split; rewrite ?Hpend; cbn [graph queue threads caller trace]; try done.
  - by apply Forall_insert_ok.
  - intros u'. specialize (Iplace u'). trace_simpl. note_insert Ew. arith.
  - intros u'. specialize (Istarted u'). trace_simpl. note_insert Ew. arith.
  - intros u'. specialize (Ifinished u'). trace_simpl. note_insert Ew. arith.
  - intros v Hv. rewrite Hpend. by apply Icounter.
  - intros u' v Hu'. specialize (Idec u' v Hu'). trace_simpl.
    note_insert Ew. arith.
  - intros v Hv Hin. rewrite Hpend.
    specialize (Iready v Hv Hin). trace_simpl. note_insert Ew. arith.
  - split; [|done]. intros u0 Hu0 Hedge.
    pose proof (indegree_pos d0 u0 u Hu0 Hedge) as Hin.
    specialize (Iready u Hu Hin).
    destruct (decide (pending d0 c u = 0)) as [Hz|]; [|lia].
    by apply (pending_zero_preds c u0 u Hinv').
  - constructor; [exact Hu | exact Ievents].
Qed.


(** The return of the work function of [u] resolves the edges out of [u]. *)
Lemma unresolved_finish t u v :
  u < length (nodes d0) -> finished_n t u = 0 ->
  unresolved d0 t v = unresolved d0 (EvFinish u :: t) v + occ v (succs_of d0 u).
Proof.
  intros Hu Hf. unfold unresolved.
  pose proof (total_update
    (fun u' => if decide (finished_n t u' = 0) then occ v (succs_of d0 u') else 0)
    (fun u' => if decide (finished_n (EvFinish u :: t) u' = 0)
               then occ v (succs_of d0 u') else 0)
    (seq 0 (length (nodes d0))) u (NoDup_seq _ _)) as Hup.
  cbv beta in Hup.
  rewrite (decide_True (P := finished_n t u = 0)) in Hup by done.
  rewrite (decide_False (P := finished_n (EvFinish u :: t) u = 0)) in Hup.
  2:{ rewrite finished_n_cons. cbv beta iota. rewrite decide_True by done. lia. }
  rewrite <- Hup; [lia | apply elem_of_seq; lia |].
  intros x _ Hx. rewrite finished_n_cons. cbv beta iota.
  rewrite (decide_False (P := u = x)) by done. done.
Qed.

(** The work function returns; the worker enters the loop over [adj[u]]. *)
Lemma step_finish c k u nd succs :
  pass_inv d0 c -> threads c !! k = Some (WExec u) ->
  adj (graph c) !! u = Some succs ->
  pass_inv d0 {| graph := with_nodes (graph c) (<[u := nd]> (nodes (graph c)));
                 queue := queue c;
                 threads := <[k := WResolve u succs]> (threads c);
                 caller := caller c; trace := EvFinish u :: trace c |}.
Proof.
  intros Hinv Ew Eadj.
  destruct (worker_node_once c k _ u Hinv Ew) as (Hon & Hq & Hret & Hsub).
  { simpl. by rewrite decide_True. }
  pose proof (Forall_lookup_1 _ _ _ _ (pi_workers _ _ Hinv) Ew) as Hu.
  simpl in Hu.
  assert (succs_of d0 u = succs) as Hsuccs.
  { unfold succs_of. by rewrite <- (pi_adj _ _ Hinv), Eadj. }
  assert (finished_n (trace c) u = 0) as Hfin.
  { rewrite (pi_finished _ _ Hinv).
    pose proof (total_le_at (has_finished u) (on_node u) _ _ _ Ew) as Hle.
    simpl in Hle. rewrite decide_True in Hle by done.
    assert (forall x, has_finished u x <= on_node u x) as Hpt
      by (intros x; destruct x; simpl; arith).
    specialize (Hle Hpt). lia. }
  assert (forall v, pending d0 {| graph := with_nodes (graph c) (<[u := nd]> (nodes (graph c)));
                 queue := queue c;
                 threads := <[k := WResolve u succs]> (threads c);
                 caller := caller c; trace := EvFinish u :: trace c |} v
               = pending d0 c v) as Hpend.
  { intros v. unfold pending. cbn [threads trace].
    note_insert Ew. rewrite (unresolved_finish (trace c) u v) by done.
    rewrite Hsuccs. lia. }
  open_inv Hinv.
  split; rewrite ?Hpend; cbn [graph queue threads caller trace with_nodes
    nodes adj base_indegree current_indegree remaining]; try done.
  - by rewrite length_insert.
  - apply Forall_insert_ok; [done|]. simpl. split; [done|]. exists []. by rewrite Hsuccs.
  - intros u'. specialize (Iplace u'). trace_simpl. note_insert Ew. arith.
  - intros u'. specialize (Istarted u'). trace_simpl. note_insert Ew. arith.
  - intros u'. specialize (Ifinished u'). trace_simpl. note_insert Ew. arith.
  - intros v Hv. rewrite Hpend. by apply Icounter.
  - intros u' v Hu'. specialize (Idec u' v Hu'). trace_simpl.
    note_insert Ew. rewrite <- Hsuccs in *. arith.
  - intros v Hv Hin. rewrite Hpend.
    specialize (Iready v Hv Hin). trace_simpl. note_insert Ew. arith.
  - constructor; [exact Hu | exact Ievents].
Qed.

(** A worker decrements the live counter of a successor. *)
Lemma step_dec c k u v vs old :
  pass_inv d0 c -> threads c !! k = Some (WResolve u (v :: vs)) ->
  current_indegree (graph c) !! v = Some old ->
  pass_inv d0 {| graph := with_counters (graph c)
                             (<[v := wrap_int (old - 1)]> (current_indegree (graph c)))
                             (remaining (graph c));
                  queue := queue c;
                  threads := <[k := if (old =? 1)%Z then WSubmit u v vs
                                    else WResolve u vs]> (threads c);
                  caller := caller c; trace := EvDec u v :: trace c |}.
Proof.
  intros Hinv Ew Eold.
  pose proof (Forall_lookup_1 _ _ _ _ (pi_workers _ _ Hinv) Ew) as [Hu [pre Hpre]].
  assert (v < length (nodes d0)) as Hv.
  { apply (wf_succ_range d0 Hwf u). rewrite Hpre.
    apply elem_of_app. right. by left. }
  assert (indegree d0 v <> 0) as Hin.
  { apply (indegree_pos d0 u v Hu). rewrite Hpre.
    apply elem_of_app. right. by left. }
  pose proof (pi_counter _ _ Hinv v Hv) as Hcnt. rewrite Eold in Hcnt.
  injection Hcnt as ->.
  assert (1 <= pending d0 c v) as Hpos.
  { unfold pending.
    pose proof (total_lookup_le (owes v) _ _ _ Ew) as Hle. simpl in Hle.
    rewrite occ_cons, decide_True in Hle by done. lia. }
  pose proof (Forall_lookup_1 _ _ _ _ (pi_bound _ _ Hinv) Eold) as Hmax.
  cbv beta in Hmax.
  rewrite wrap_int_id by (unfold INT_MIN; lia).
  set (w' := if (Z.of_nat (pending d0 c v) =? 1)%Z then WSubmit u v vs
             else WResolve u vs).
  assert (forall v', owes v' w' = occ v' vs) as Howes
    by (intros v'; unfold w'; by destruct (_ =? _)%Z).
  assert (forall u' v', owes_from u' v' w' = if decide (u = u') then occ v' vs else 0)
    as Howesf by (intros u' v'; unfold w'; by destruct (_ =? _)%Z).
  assert (forall u', on_node u' w' = if decide (u = u') then 1 else 0) as Hon'
    by (intros u'; unfold w'; by destruct (_ =? _)%Z).
  assert (forall u', has_started u' w' = if decide (u = u') then 1 else 0) as Hst'
    by (intros u'; unfold w'; by destruct (_ =? _)%Z).
  assert (forall u', has_finished u' w' = if decide (u = u') then 1 else 0) as Hfi'
    by (intros u'; unfold w'; by destruct (_ =? _)%Z).
  assert (forall v', pending d0 {| graph := with_counters (graph c)
                             (<[v := (Z.of_nat (pending d0 c v) - 1)%Z]> (current_indegree (graph c)))
                             (remaining (graph c));
                  queue := queue c;
                  threads := <[k := w']> (threads c);
                  caller := caller c; trace := EvDec u v :: trace c |} v'
                + (if decide (v = v') then 1 else 0)
               = pending d0 c v') as Hpend.
  { intros v'. unfold pending. cbn [threads trace].
    note_insert Ew. rewrite Howes, occ_cons in Hins.
    change (unresolved d0 (EvDec u v :: trace c) v')
      with (unresolved d0 (trace c) v'). lia. }
  open_inv Hinv.
  split; cbn [graph queue threads caller trace with_counters
    nodes adj base_indegree current_indegree remaining]; try done.
  - by rewrite length_insert.
  - apply Forall_insert_ok; [done|]. unfold w'.
    destruct (_ =? _)%Z; simpl; (split; [done|]).
    + by exists pre.
    + exists (pre ++ [v]). by rewrite <- app_assoc.
  - intros u'. specialize (Iplace u'). trace_simpl. note_insert Ew.
    rewrite Hon' in *. arith.
  - intros u'. specialize (Istarted u'). trace_simpl. note_insert Ew.
    rewrite Hst' in *. arith.
  - intros u'. specialize (Ifinished u'). trace_simpl. note_insert Ew.
    rewrite Hfi' in *. arith.
  - intros v' Hv'. specialize (Hpend v').
    rewrite (lookup_insert_cases _ _ _ _ _ Eold).
    destruct (decide (v' = v)) as [->|Hne].
    + rewrite decide_True in Hpend by done. f_equal. lia.
    + rewrite decide_False in Hpend by done. rewrite Icounter by done.
      f_equal. lia.
  - apply Forall_insert; [done|]. lia.
  - intros u' v' Hu'. specialize (Idec u' v' Hu'). trace_simpl.
    note_insert Ew. rewrite Howesf, occ_cons in *. arith.
  - intros v' Hv' Hin'. specialize (Hpend v').
    specialize (Iready v' Hv' Hin'). trace_simpl. note_insert Ew.
    unfold w' in Hins.
    destruct (Z.eqb_spec (Z.of_nat (pending d0 c v)) 1) as [Hone|Hmore];
      simpl in Hins; arith.
  - constructor; [exact (conj Hu Hv) | exact Ievents].
Qed.


(** The worker whose decrement returned 1 enqueues the successor. *)
Lemma step_submit c k u v vs :
  pass_inv d0 c -> threads c !! k = Some (WSubmit u v vs) ->
  pass_inv d0 {| graph := graph c; queue := queue c ++ [v];
                 threads := <[k := WResolve u vs]> (threads c);
                 caller := caller c; trace := EvSubmit v :: trace c |}.
Proof.
  intros Hinv Ew.
  pose proof (Forall_lookup_1 _ _ _ _ (pi_workers _ _ Hinv) Ew) as [Hu [pre Hpre]].
  assert (v ∈ succs_of d0 u) as Hedge.
  { rewrite Hpre. apply elem_of_app. right. by left. }
  pose proof (wf_succ_range d0 Hwf u v Hedge) as Hv.
  pose proof (indegree_pos d0 u v Hu Hedge) as Hin.
  assert (submitted (trace c) v = 0) as Hsub.
  { pose proof (pi_ready _ _ Hinv v Hv Hin) as Hr.
    pose proof (total_lookup_le (submitting v) _ _ _ Ew) as Hle. simpl in Hle.
    rewrite decide_True in Hle by done. revert Hr. case_decide; lia. }
  assert (forall v', pending d0 {| graph := graph c; queue := queue c ++ [v];
                 threads := <[k := WResolve u vs]> (threads c);
                 caller := caller c; trace := EvSubmit v :: trace c |} v'
               = pending d0 c v') as Hpend.
  { intros v'. unfold pending. cbn [threads trace].
    note_insert Ew. change (unresolved d0 (EvSubmit v :: trace c) v')
      with (unresolved d0 (trace c) v'). lia. }
  open_inv Hinv.
  split; cbn [graph queue threads caller trace]; try done.
  - apply Forall_insert_ok; [done|]. simpl. split; [done|].
    exists (pre ++ [v]). by rewrite <- app_assoc.
  - apply Forall_app. split; [done|]. by constructor.
  - intros u'. specialize (Iplace u'). trace_simpl. rewrite occ_app, occ_cons, occ_nil.
    note_insert Ew. arith.
  - intros u'. specialize (Ionce u'). trace_simpl. arith.
  - intros u'. specialize (Istarted u'). trace_simpl. note_insert Ew. arith.
  - intros u'. specialize (Ifinished u'). trace_simpl. note_insert Ew. arith.
  - intros v' Hv'. rewrite Hpend. by apply Icounter.
  - intros u' v' Hu'. specialize (Idec u' v' Hu'). trace_simpl.
    note_insert Ew. arith.
  - intros v' Hv' Hin'. specialize (Iseed v' Hv' Hin'). trace_simpl. arith.
  - intros v' Hv' Hin'. rewrite Hpend.
    specialize (Iready v' Hv' Hin'). trace_simpl. note_insert Ew. arith.
  - constructor; [exact Hv | exact Ievents].
Qed.

(** A node retires at most once; at most as many retirements as nodes. *)
Lemma retired_le_one c u : pass_inv d0 c -> retired (trace c) u <= 1.
Proof.
  intros Hinv. pose proof (pi_place _ _ Hinv u). pose proof (pi_once _ _ Hinv u).
  lia.
Qed.

Lemma retired_total c :
  pass_inv d0 c ->
  total (retired (trace c)) (seq 0 (length (nodes d0))) <= length (nodes d0).
Proof.
  intros Hinv.
  pose proof (total_bound (retired (trace c)) (seq 0 (length (nodes d0)))) as Hb.
  rewrite length_seq in Hb. apply Hb. intros u _. by apply retired_le_one.
Qed.

Lemma retired_total_lt c u :
  pass_inv d0 c -> u < length (nodes d0) -> retired (trace c) u = 0 ->
  total (retired (trace c)) (seq 0 (length (nodes d0))) < length (nodes d0).
Proof.
  intros Hinv Hu Hz.
  pose proof (retired_total c Hinv) as Hle.
  destruct (decide (total (retired (trace c)) (seq 0 (length (nodes d0)))
                    = length (nodes d0))) as [Heq|]; [|lia].
  pose proof (total_full (retired (trace c)) (seq 0 (length (nodes d0))) u
                (fun y _ => retired_le_one c y Hinv)) as H1.
  rewrite length_seq in H1. rewrite H1 in Hz; [done | done |].
  apply elem_of_seq. lia.
Qed.

Hypothesis Hsize : (Z.of_nat (length (nodes d0)) <= SIZE_MAX)%Z.

(** A worker leaves [dispatch] by decrementing [remaining]. *)
Lemma step_retire_wait c k u :
  pass_inv d0 c -> threads c !! k = Some (WResolve u []) ->
  pass_inv d0 {| graph := with_counters (graph c) (current_indegree (graph c))
                         (wrap_size (remaining (graph c) - 1));
                 queue := queue c; threads := <[k := WWait]> (threads c);
                 caller := caller c; trace := EvRetire u :: trace c |}.
Proof.
  intros Hinv Ew.
  destruct (worker_node_once c k _ u Hinv Ew) as (Hon & Hq & Hret & Hsub).
  { simpl. by rewrite decide_True. }
  pose proof (Forall_lookup_1 _ _ _ _ (pi_workers _ _ Hinv) Ew) as [Hu _].
  pose proof (retired_total_lt c u Hinv Hu Hret) as Hlt.
  assert (total (retired (EvRetire u :: trace c)) (seq 0 (length (nodes d0)))
          = S (total (retired (trace c)) (seq 0 (length (nodes d0))))) as Htot.
  { pose proof (total_update (retired (trace c)) (retired (EvRetire u :: trace c))
      (seq 0 (length (nodes d0))) u (NoDup_seq _ _)) as Hup.
    rewrite (retired_cons _ _ u) in Hup. cbv beta iota in Hup.
    rewrite decide_True in Hup by done.
    rewrite Hret in Hup.
    assert (total (retired (trace c)) (seq 0 (length (nodes d0))) + (1 + 0)
            = total (retired (EvRetire u :: trace c)) (seq 0 (length (nodes d0))) + 0);
      [|lia].
    apply Hup; [apply elem_of_seq; lia|].
    intros x _ Hx. rewrite retired_cons. cbv beta iota.
    by rewrite (decide_False (P := u = x)). }
  assert (forall v, pending d0 {| graph := with_counters (graph c) (current_indegree (graph c))
                         (wrap_size (remaining (graph c) - 1));
                 queue := queue c; threads := <[k := WWait]> (threads c);
                 caller := caller c; trace := EvRetire u :: trace c |} v
               = pending d0 c v) as Hpend.
  { intros v. unfold pending. cbn [threads trace].
    note_insert Ew. rewrite occ_nil in Hins.
    change (unresolved d0 (EvRetire u :: trace c) v)
      with (unresolved d0 (trace c) v). lia. }
  pose proof (pi_remaining _ _ Hinv) as Hrem.
  assert (wrap_size (remaining (graph c) - 1) = (remaining (graph c) - 1)%Z) as Hwrap.
  { apply wrap_size_id. rewrite Hrem. lia. }
  open_inv Hinv.
  split; cbn [graph queue threads caller trace with_counters
    nodes adj base_indegree current_indegree remaining]; try done.
  - by apply Forall_insert_ok.
  - intros u'. specialize (Iplace u'). trace_simpl. note_insert Ew. arith.
  - intros u'. specialize (Istarted u'). trace_simpl. note_insert Ew. arith.
  - intros u'. specialize (Ifinished u'). trace_simpl. note_insert Ew. arith.
  - intros v Hv. rewrite Hpend. by apply Icounter.
  - intros u' v Hu'. specialize (Idec u' v Hu'). trace_simpl.
    note_insert Ew. rewrite ?occ_nil in Hins. arith.
  - intros v Hv Hin. rewrite Hpend.
    specialize (Iready v Hv Hin). trace_simpl. note_insert Ew. arith.
  - rewrite Hwrap, Htot, Hrem. lia.
  - destruct (caller c); try done. rewrite Hrem in Icaller. lia.
  - constructor; [exact Hu | exact Ievents].
Qed.


(** A worker that holds no task moves between waiting for one and
    announcing the end of the pass. *)
Lemma step_idle c k w w' :
  pass_inv d0 c -> threads c !! k = Some w ->
  w = WWait \/ w = WNotify -> w' = WWait \/ w' = WNotify ->
  pass_inv d0 {| graph := graph c; queue := queue c;
                 threads := <[k := w']> (threads c);
                 caller := caller c; trace := trace c |}.
Proof.
  intros Hinv Ew Hw Hw'.
  assert (forall f : wstate -> nat, f WWait = 0 -> f WNotify = 0 ->
            total f (<[k := w']> (threads c)) = total f (threads c)) as Htot.
  { intros f Hf Hf'. pose proof (total_insert f _ _ _ w' Ew).
    destruct Hw as [-> | ->], Hw' as [-> | ->]; lia. }
  assert (forall v, pending d0 {| graph := graph c; queue := queue c;
                 threads := <[k := w']> (threads c);
                 caller := caller c; trace := trace c |} v
               = pending d0 c v) as Hpend.
  { intros v. unfold pending. cbn [threads trace]. by rewrite Htot. }
  open_inv Hinv.
  split; cbn [graph queue threads caller trace]; try done;
    try (by intros; rewrite ?Hpend, ?Htot by done; auto).
  apply Forall_insert_ok; [done|]. by destruct Hw' as [-> | ->].
Qed.

Lemma step_retire c k u w' :
  pass_inv d0 c -> threads c !! k = Some (WResolve u []) ->
  w' = WWait \/ w' = WNotify ->
  pass_inv d0 {| graph := with_counters (graph c) (current_indegree (graph c))
                         (wrap_size (remaining (graph c) - 1));
                 queue := queue c; threads := <[k := w']> (threads c);
                 caller := caller c; trace := EvRetire u :: trace c |}.
Proof.
  intros Hinv Ew Hw'.
  pose proof (step_retire_wait c k u Hinv Ew) as Hinv1.
  pose proof (step_idle _ k WWait w' Hinv1) as Hinv2.
  cbn [graph queue threads caller trace] in Hinv2.
  rewrite list_insert_insert_eq in Hinv2. apply Hinv2; [|by left|done].
  apply list_lookup_insert_eq. by eapply lookup_lt_Some.
Qed.

(** The static in-degree the seeding loop reads is the number of edges
    into the node. *)
Lemma base_is_indegree c i b :
  pass_inv d0 c -> i < length (nodes d0) ->
  base_indegree (graph c) !! i = Some b -> b = Z.of_nat (indegree d0 i).
Proof.
  intros Hinv Hi Hb. rewrite (pi_base _ _ Hinv), (wf_base d0 Hwf i Hi) in Hb.
  by injection Hb.
Qed.

(** One iteration of the seeding loop, which enqueues node [i] or not. *)
Lemma step_seed c i (enq : bool) :
  pass_inv d0 c -> caller c = MSeed i -> i < length (nodes d0) ->
  (if enq then indegree d0 i = 0 else indegree d0 i <> 0) ->
  pass_inv d0 {| graph := graph c;
                 queue := if enq then queue c ++ [i] else queue c;
                 threads := threads c; caller := MSeed (S i);
                 trace := if enq then EvSubmit i :: trace c else trace c |}.
Proof.
  intros Hinv Ec Hi Hdeg.
  assert (forall v, pending d0 {| graph := graph c;
                 queue := if enq then queue c ++ [i] else queue c;
                 threads := threads c; caller := MSeed (S i);
                 trace := if enq then EvSubmit i :: trace c else trace c |} v
               = pending d0 c v) as Hpend.
  { intros v. unfold pending. cbn [threads trace]. by destruct enq. }
  pose proof (pi_seed _ _ Hinv i Hi) as Hseed_i. rewrite Ec in Hseed_i.
  simpl in Hseed_i. rewrite Nat.ltb_irrefl in Hseed_i.
  open_inv Hinv. rewrite Ec in Iseed. simpl in Iseed.
  split; cbn [graph queue threads caller trace seeded]; try done.
  - destruct enq; [|done]. apply Forall_app. split; [done|]. by constructor.
  - intros u. specialize (Iplace u). destruct enq; [|done]. trace_simpl.
    rewrite occ_app, occ_cons, occ_nil. arith.
  - intros u. specialize (Ionce u). destruct enq; [|done]. trace_simpl.
    specialize (Hseed_i Hdeg). arith.
  - by destruct enq.
  - by destruct enq.
  - intros v Hv. rewrite Hpend. by apply Icounter.
  - by destruct enq.
  - intros v Hv Hin. specialize (Iseed v Hv Hin).
    destruct (decide (v = i)) as [->|Hne].
    + destruct enq; [|done]. specialize (Hseed_i Hdeg). trace_simpl.
      rewrite decide_True by done.
      assert ((i <? S i) = true) as -> by (apply Nat.ltb_lt; lia). lia.
    + assert ((v <? S i) = (v <? i)) as ->.
      { destruct (Nat.ltb_spec v i), (Nat.ltb_spec v (S i)); try done; lia. }
      destruct enq; [|done]. trace_simpl. rewrite decide_False by done. done.
  - intros v Hv Hin. rewrite Hpend. specialize (Iready v Hv Hin).
    destruct enq; [|done]. trace_simpl.
    rewrite decide_False by (intros ->; done). done.
  - by destruct enq.
  - by destruct enq.
  - destruct enq; [constructor; [exact Hi | exact Ievents] | exact Ievents].
Qed.

(** The seeding loop ends. *)
Lemma step_seed_done c i :
  pass_inv d0 c -> caller c = MSeed i -> length (nodes d0) <= i ->
  pass_inv d0 {| graph := graph c; queue := queue c; threads := threads c;
                 caller := MWait; trace := trace c |}.
Proof.
  intros Hinv Ec Hi. open_inv Hinv. rewrite Ec in Iseed. simpl in Iseed.
  split; cbn [graph queue threads caller trace seeded]; try done.
  intros v Hv Hin. rewrite (Iseed v Hv Hin).
  assert ((v <? i) = true) as -> by (apply Nat.ltb_lt; lia). done.
Qed.

(** The wait of the caller ends. *)
Lemma step_return c :
  pass_inv d0 c -> caller c = MWait -> remaining (graph c) = 0%Z ->
  pass_inv d0 {| graph := graph c; queue := queue c; threads := threads c;
                 caller := MReturned; trace := trace c |}.
Proof.
  intros Hinv Ec Hrem. open_inv Hinv. rewrite Ec in Iseed. simpl in Iseed.
  split; cbn [graph queue threads caller trace seeded]; try done.
Qed.

(** Every step keeps the invariant. *)
Lemma step_inv a c c' :
  pass_inv d0 c -> step executor a c = Next c' -> pass_inv d0 c'.
Proof.
  intros Hinv Hstep. destruct a as [|k]; simpl in Hstep.
  - unfold caller_step in Hstep. destruct (caller c) as [i| |] eqn:Ec; [| |done].
    + rewrite (pi_nodes _ _ Hinv) in Hstep.
      destruct (Nat.ltb_spec i (length (nodes d0))) as [Hi|Hi].
      * destruct (base_indegree (graph c) !! i) as [b|] eqn:Eb; [|done].
        pose proof (base_is_indegree c i b Hinv Hi Eb) as ->.
        destruct (Z.eqb_spec (Z.of_nat (indegree d0 i)) 0) as [Hz|Hnz];
          injection Hstep as <-.
        -- apply (step_seed c i true); try done. lia.
        -- apply (step_seed c i false); try done. lia.
      * injection Hstep as <-. by apply (step_seed_done c i).
    + destruct (Z.eqb_spec (remaining (graph c)) 0) as [Hz|]; [|done].
      injection Hstep as <-. by apply step_return.
  - unfold engine_worker_step in Hstep.
    destruct (threads c !! k) as [w|] eqn:Ew; [|done].
    destruct w as [|u|u|u vs|u v vs|].
    + destruct (queue c) as [|u q] eqn:Eq; [done|]. injection Hstep as <-.
      by apply step_take.
    + destruct (nodes (graph c) !! u); [|done]. injection Hstep as <-.
      by apply step_begin.
    + destruct (nodes (graph c) !! u) as [nd|]; [|done].
      destruct (adj (graph c) !! u) as [succs|] eqn:Ea; [|done].
      injection Hstep as <-. by apply step_finish.
    + destruct vs as [|v vs].
      * injection Hstep as <-. apply step_retire; [done | done |].
        destruct (_ =? _)%Z; [by right | by left].
      * destruct (current_indegree (graph c) !! v) as [old|] eqn:Eo; [|done].
        injection Hstep as <-. by apply step_dec.
    + injection Hstep as <-. by apply step_submit.
    + destruct (caller c) eqn:Ec; try done.
      * injection Hstep as <-. rewrite <- Ec.
        apply (step_idle c k WNotify WWait); [done | done | by right | by left].
      * injection Hstep as <-. rewrite <- Ec.
        apply (step_idle c k WNotify WWait); [done | done | by right | by left].
Qed.



(** The invariant holds when the pass starts, right after [reset()]. *)
Lemma init_inv (pool_size : nat) :
  0 < length (nodes d0) ->
  current_indegree d0 = base_indegree d0 ->
  remaining d0 = Z.of_nat (length (nodes d0)) ->
  Forall (fun b => (b <= INT_MAX)%Z) (base_indegree d0) ->
  pass_inv d0 {| graph := d0; queue := []; threads := replicate pool_size WWait;
                 caller := MSeed 0; trace := [] |}.
Proof.
  intros Hn Hcur Hrem Hfit.
  assert (forall f : wstate -> nat, f WWait = 0 ->
            total f (replicate pool_size WWait) = 0) as Hidle.
  { intros f Hf. rewrite total_replicate, Hf. lia. }
  assert (forall v, pending d0 {| graph := d0; queue := [];
                 threads := replicate pool_size WWait;
                 caller := MSeed 0; trace := [] |} v = indegree d0 v) as Hpend.
  { intros v. unfold pending. cbn [threads trace]. rewrite Hidle by done.
    rewrite Nat.add_0_r. unfold unresolved, indegree. done. }
  split; cbn [graph queue threads caller trace seeded]; try done.
  - rewrite Hcur. apply (wf_base_length d0 Hwf).
  - apply Forall_forall. by intros w [-> _]%elem_of_replicate.
  - intros u. rewrite Hidle by done. done.
  - intros u. unfold submitted. simpl. lia.
  - intros u. rewrite Hidle by done. done.
  - intros u. rewrite Hidle by done. done.
  - intros v Hv. rewrite Hpend, Hcur. by apply (wf_base d0 Hwf).
  - by rewrite Hcur.
  - intros u v Hu. rewrite Hidle by done. done.
  - intros v Hv Hin. rewrite Hpend, Hidle by done.
    rewrite decide_False by done. done.
  - rewrite Hrem, total_zero; [lia | done].
  - lia.
Qed.

(** No step changes the number of workers. *)
Lemma step_threads_length a c c' :
  step executor a c = Next c' -> length (threads c') = length (threads c).
Proof.
  destruct a as [|k]; simpl.
  - unfold caller_step. destruct (caller c); try done.
    + destruct (_ <? _); [|by intros [= <-]].
      destruct (base_indegree (graph c) !! _); [|done].
      destruct (_ =? _)%Z; by intros [= <-].
    + destruct (_ =? _)%Z; [|done]. by intros [= <-].
  - unfold engine_worker_step. destruct (threads c !! k) as [w|]; [|done].
    destruct w as [|u|u|u vs|u v vs|].
    + destruct (queue c); [done|]. intros [= <-]. simpl. apply length_insert.
    + destruct (nodes (graph c) !! u); [|done]. intros [= <-]. simpl.
      apply length_insert.
    + destruct (nodes (graph c) !! u); [|done].
      destruct (adj (graph c) !! u); [|done]. intros [= <-]. simpl.
      apply length_insert.
    + destruct vs as [|v vs].
      * intros [= <-]. simpl. apply length_insert.
      * destruct (current_indegree (graph c) !! v); [|done].
        intros [= <-]. simpl. apply length_insert.
    + intros [= <-]. simpl. apply length_insert.
    + destruct (caller c); try done; intros [= <-]; simpl; apply length_insert.
Qed.

(** *** Termination *)










(** *** A scheduler that completes the pass *)





(** *** Consequences of the invariant *)


(** When [execute_parallel] has returned, every node has gone through its
    whole dispatch task, once. *)
Lemma returned_all_once c u :
  pass_inv d0 c -> caller c = MReturned -> u < length (nodes d0) ->
  submitted (trace c) u = 1 /\ started_n (trace c) u = 1
  /\ finished_n (trace c) u = 1 /\ retired (trace c) u = 1
  /\ total (on_node u) (threads c) = 0.
Proof.
  intros Hinv Ec Hu.
  pose proof (pi_caller _ _ Hinv) as Hc. rewrite Ec in Hc.
  pose proof (pi_remaining _ _ Hinv) as Hrem. rewrite Hc in Hrem.
  pose proof (total_full (retired (trace c)) (seq 0 (length (nodes d0))) u
                (fun y _ => retired_le_one c y Hinv)) as Hret.
  rewrite length_seq in Hret.
  assert (retired (trace c) u = 1) as Hr.
  { apply Hret; [lia | apply elem_of_seq; lia]. }
  pose proof (pi_place _ _ Hinv u). pose proof (pi_once _ _ Hinv u).
  pose proof (pi_started _ _ Hinv u). pose proof (pi_finished _ _ Hinv u).
  assert (total (has_started u) (threads c) <= total (on_node u) (threads c))
    by (apply total_le; intros w _; destruct w; simpl; arith).
  assert (total (has_finished u) (threads c) <= total (on_node u) (threads c))
    by (apply total_le; intros w _; destruct w; simpl; arith).
  lia.
Qed.






End PassFacts.

(** ** A pass from its entry *)

Section Pass.
Context `{Params}.
Variable executor : nat -> list Node -> Node -> Node.

(** What one step does to the trace and to the nodes: only the return of
    the work function of [u] changes the nodes, and it changes node [u]. *)
Lemma step_effect (a : thread) (c c' : config) :
  step executor a c = Next c' ->
  (trace c' = trace c /\ nodes (graph c') = nodes (graph c))
  \/ (exists e, trace c' = e :: trace c /\
        match e with
        | EvFinish u =>
            exists k nd, threads c !! k = Some (WExec u)
              /\ nodes (graph c) !! u = Some nd
              /\ nodes (graph c')
                 = <[u := executor u (nodes (graph c)) nd]> (nodes (graph c))
        | EvStart u =>
            (exists k, threads c !! k = Some (WCall u))
            /\ nodes (graph c') = nodes (graph c)
        | EvSubmit _ => nodes (graph c') = nodes (graph c)
        | EvDec _ _ | EvRetire _ =>
            (exists k w, threads c !! k = Some w)
            /\ nodes (graph c') = nodes (graph c)
        end).
Proof.
  destruct a as [|k]; simpl.
  - unfold caller_step. destruct (caller c); [| |done].
    + destruct (_ <? _).
      * destruct (base_indegree (graph c) !! _); [|done].
        destruct (_ =? _)%Z; intros [= <-]; simpl.
        -- right. eexists. split; [reflexivity|]. done.
        -- by left.
      * intros [= <-]. by left.
    + destruct (_ =? _)%Z; [|done]. intros [= <-]. by left.
  - unfold engine_worker_step. destruct (threads c !! k) as [w|] eqn:Ew; [|done].
    destruct w as [|u|u|u vs|u v vs|].
    + destruct (queue c); [done|]. intros [= <-]. by left.
    + destruct (nodes (graph c) !! u); [|done]. intros [= <-]. right.
      exists (EvStart u). simpl. eauto.
    + destruct (nodes (graph c) !! u) as [nd|] eqn:En; [|done].
      destruct (adj (graph c) !! u); [|done]. intros [= <-]. right.
      exists (EvFinish u). simpl. eauto 10.
    + destruct vs as [|v vs].
      * intros [= <-]. right. exists (EvRetire u). simpl. eauto.
      * destruct (current_indegree (graph c) !! v); [|done].
        intros [= <-]. right. exists (EvDec u v). simpl. eauto.
    + intros [= <-]. right. exists (EvSubmit v). simpl. eauto.
    + destruct (caller c); try done; intros [= <-]; by left.
Qed.



(** Every configuration a pass on a non-empty graph reaches satisfies the
    invariant of the dispatch protocol. *)
Lemma pass_reachable (pool_size : nat) (d : DAG) sched c :
  wf_store d -> fits d -> nodes d <> [] ->
  run executor sched (execute_parallel pool_size d) = Next c ->
  pass_inv (reset d) c /\ length (threads c) = pool_size.
Proof.
  intros Hwf [Hint Hsz] Hne Hrun.
  pose proof (wf_reset d Hwf) as Hwf'.
  apply (run_with_invariant (step executor)
           (fun c => pass_inv (reset d) c /\ length (threads c) = pool_size)
           ltac:(intros a c1 c2 [Hi Hl] Hs; split;
                 [by apply (step_inv executor (reset d) Hwf' Hsz a c1 c2)
                 |by rewrite (step_threads_length executor a c1 c2 Hs)])
           sched (execute_parallel pool_size d) c); [|exact Hrun].
  unfold execute_parallel. destruct (nodes d) as [|nd ns] eqn:En; [done|].
  split; [|apply length_replicate].
  apply (init_inv (reset d) Hwf' pool_size); try done.
  - simpl. rewrite En. simpl. lia.
  - change (base_indegree (reset d)) with (base_indegree d).
    apply reset_counters. apply (wf_base_length d Hwf).
Qed.


End Pass.

(** ** The properties of a pass *)

Section PassTheorems.
Context `{Params}.
Variable executor : nat -> list Node -> Node -> Node.





End PassTheorems.

(** ** The sample program *)

Lemma diamond_built : apply_ops (new_dag 0) diamond_ops = Some diamond.
Proof. reflexivity. Qed.

Lemma diamond_bounded (v : nat) :
  v < size diamond -> (Z.of_nat (indegree diamond v) <= INT_MAX)%Z.
Proof.
  intros Hv. do 4 (destruct v as [|v]; [by vm_compute|]).
  unfold size in Hv. simpl in Hv. lia.
Qed.

Lemma diamond_wf : wf_store diamond.
Proof. exact (built_wf 0 diamond_ops diamond diamond_built diamond_bounded). Qed.

Lemma diamond_fits : fits diamond.
Proof.
  split.
  - assert (base_indegree diamond = [0; 1; 1; 2]%Z) as -> by (by vm_compute).
    repeat (constructor; [unfold INT_MAX; lia|]). constructor.
  - unfold SIZE_MAX. simpl. lia.
Qed.


Lemma diamond_run :
  run sample_executor diamond_schedule (execute_parallel 2 diamond)
  = Next diamond_final.
Proof. vm_compute. reflexivity. Qed.





Lemma reset_spec_witness :
  length (base_indegree diamond) = size diamond
  /\ current_indegree (reset diamond) !! 3 = Some 2%Z
  /\ remaining (reset diamond) = 4%Z
  /\ reset (reset diamond) = reset diamond.
Proof.
  assert (length (base_indegree diamond) = size diamond) as Hlen by reflexivity.
  destruct (reset_spec diamond Hlen) as (Hcur & _ & Hrem & _ & _ & _ & Hidem).
  split; [exact Hlen|]. split; [|split; [exact Hrem | exact Hidem]].
  apply Hcur. reflexivity.
Defined.

Lemma add_edge_spec_witness :
  add_edge diamond 7 0 = diamond
  /\ adj (add_edge diamond 0 3) !! 0 = Some [1; 2; 3]
  /\ base_indegree (add_edge diamond 0 3) !! 3 = Some 3%Z.
Proof.
  destruct (add_edge_spec diamond 7 0) as [Hout _].
  destruct (add_edge_spec diamond 0 3) as [_ Hin].
  assert (0 < size diamond) as H0 by (unfold size; simpl; lia).
  assert (3 < size diamond) as H3 by (unfold size; simpl; lia).
  destruct (Hin H0 H3) as (_ & _ & _ & _ & _ & Hadj & _ & Hbase & _).
  split; [|split].
  - apply Hout. left. unfold size. simpl. lia.
  - exact (Hadj [1; 2] eq_refl).
  - apply (Hbase 2%Z eq_refl). unfold INT_MIN, INT_MAX. lia.
Defined.

Lemma replicate_snoc {A : Type} (n : nat) (x : A) :
  replicate (S n) x = replicate n x ++ [x].
Proof. induction n as [|n IH]; simpl; [done|]. by rewrite <- IH. Qed.

(** One more parallel edge, as long as the counter does not overflow. *)
Lemma fan_in_add_edge (n : nat) :
  (Z.of_nat n < INT_MAX)%Z -> add_edge (fan_in n) 0 1 = fan_in (S n).
Proof.
  intros Hn. unfold add_edge, fan_in. cbn [nodes adj base_indegree length].
  change (alter (fun succs => succs ++ [1]) 0 [replicate n 1; []])
    with [replicate n 1 ++ [1]; []].
  change (alter (fun k => wrap_int (k + 1)) 1 [0%Z; Z.of_nat n])
    with [0%Z; wrap_int (Z.of_nat n + 1)].
  rewrite wrap_int_id by (unfold INT_MIN; lia).
  rewrite <- replicate_snoc, Nat2Z.inj_succ. done.
Qed.

(** The calls of [fan_in_ops n] build [fan_in n]. *)
Lemma fan_in_built (n : nat) :
  (Z.of_nat n <= INT_MAX)%Z ->
  apply_ops (new_dag 0) (fan_in_ops n) = Some (fan_in n).
Proof.
  induction n as [|n IH]; intros Hn; [done|].
  unfold fan_in_ops in *. rewrite replicate_snoc, app_assoc, apply_ops_app.
  rewrite IH by lia. cbn [apply_ops apply_op].
  rewrite fan_in_add_edge by lia. done.
Qed.

(** The increment of a counter that holds [n]. *)
Lemma fan_in_increment (n : nat) :
  base_indegree (add_edge (fan_in n) 0 1) !! 1
  = Some (wrap_int (Z.of_nat n + 1)).
Proof. done. Qed.

(** C5 fails for the edge that follows [INT_MAX] edges into one node: both
    handles are in range and the static in-degree of the sink, which is
    [INT_MAX], does not become [INT_MAX + 1]. *)
Lemma add_edge_overflows_at_int_max :
  apply_ops (new_dag 0) (fan_in_ops (Z.to_nat INT_MAX))
  = Some (fan_in (Z.to_nat INT_MAX))
  /\ size (fan_in (Z.to_nat INT_MAX)) = 2
  /\ base_indegree (fan_in (Z.to_nat INT_MAX)) !! 1 = Some INT_MAX
  /\ base_indegree (add_edge (fan_in (Z.to_nat INT_MAX)) 0 1) !! 1
     = Some INT_MIN
  /\ INT_MIN <> (INT_MAX + 1)%Z.
Proof.
  assert (Z.of_nat (Z.to_nat INT_MAX) = INT_MAX) as Hmax
    by (apply Z2Nat.id; unfold INT_MAX; lia).
  split; [apply fan_in_built; rewrite Hmax; lia|].
  split; [done|].
  split; [change (Some (Z.of_nat (Z.to_nat INT_MAX)) = Some INT_MAX);
          by rewrite Hmax|].
  split; [|unfold INT_MIN, INT_MAX; lia].
  rewrite fan_in_increment, Hmax. done.
Qed.

Lemma get_port_value_fails_witness :
  nodes diamond !! 0 = Some (@mkNode sample_params "InputReader" (@AnyEmpty sample_params))
  /\ @get_port_value sample_params diamond 0 TInt = BadAnyCast
  /\ @get_port_value sample_params (graph diamond_final) 0 TString = BadAnyCast.
Proof.
  split; [reflexivity|]. split.
  - apply (@get_port_value_fails sample_params diamond 0 TInt (@mkNode sample_params "InputReader" (@AnyEmpty sample_params))
             eq_refl).
    right. right. exists 0%Z, diamond_ops. split; reflexivity.
  - apply (@get_port_value_fails sample_params (graph diamond_final) 0 TString
             (@mkNode sample_params "InputReader" (@AnyVal sample_params TInt 100%Z)) eq_refl).
    right. left. exists TInt, 100%Z. split; [reflexivity | discriminate].
Defined.

Lemma port_ops_unchecked_witness :
  set_port_value diamond 4 (@AnyVal sample_params TInt 1%Z) = None
  /\ @get_port_value sample_params diamond 4 TInt = OutOfBounds
  /\ add_edge diamond 4 0 = diamond.
Proof.
  destruct (port_ops_unchecked diamond 4) as [Hout _].
  assert (size diamond <= 4) as Hge by (unfold size; simpl; lia).
  destruct (Hout Hge) as (Hset & Hget & Hedge & _).
  split; [apply Hset|]. split; [apply Hget | apply Hedge].
Defined.

Lemma stop_run : run_pool stop_schedule (ThreadPool 1) = Next stopped_pool.
Proof. reflexivity. Qed.

Lemma shutdown_drains_queue_witness :
  run_pool stop_schedule (ThreadPool 1) = Next stopped_pool
  /\ stop stopped_pool = true
  /\ exists p', worker_step 0 stopped_pool = Next p'
                /\ history p' = PStarted 0 2 :: history stopped_pool.
Proof.
  split; [exact stop_run|]. split; [reflexivity|].
  destruct (shutdown_drains_queue 1 stop_schedule stopped_pool stop_run)
    as (Htake & _).
  exact (Htake 0 (Task 2 []) [] eq_refl eq_refl).
Defined.

(** * Further properties *)

(** ** Further properties of the graph store *)

Section StoreExtraFacts.
Context `{Params}.

Lemma apply_op_size (d d' : DAG) (o : op) :
  apply_op d o = Some d' ->
  size d' = size d + (if is_add_node o then 1 else 0).
Proof.
  unfold size. destruct o as [x|from to| |id value]; simpl.
  - intros [= <-]. simpl. rewrite length_app. simpl. lia.
  - intros [= <-]. unfold add_edge. destruct (_ || _); simpl; lia.
  - intros [= <-]. simpl. lia.
  - unfold set_port_value. destruct (nodes d !! id); [|done].
    intros [= <-]. simpl. rewrite length_insert. lia.
Qed.

Lemma apply_ops_size (os : list op) (d d' : DAG) :
  apply_ops d os = Some d' -> size d' = size d + add_node_count os.
Proof.
  revert d. induction os as [|o os IH]; intros d; simpl.
  - intros [= <-]. unfold add_node_count. simpl. lia.
  - destruct (apply_op d o) as [d1|] eqn:E; [|done]. intros Hrun.
    rewrite (IH d1 Hrun), (apply_op_size d d1 o E).
    unfold add_node_count. simpl. lia.
Qed.

(** X1: handles are dense and follow the creation order.  After any
    sequence of store operations on a fresh graph the node count is the
    number of [add_node] calls made, whatever [add_edge], [reset] and
    [set_port_value] calls came in between; the next [add_node] returns that
    number as its handle, and the new node holds the payload given, an empty
    port, no successor and static in-degree zero. *)
Theorem handles_are_dense (r0 : Z) (os : list op) (d : DAG) (x : Payload) :
  apply_ops (new_dag r0) os = Some d ->
  size d = add_node_count os
  /\ fst (add_node d x) = add_node_count os
  /\ size (snd (add_node d x)) = S (add_node_count os)
  /\ nodes (snd (add_node d x)) !! add_node_count os = Some (mkNode x AnyEmpty)
  /\ succs_of (snd (add_node d x)) (add_node_count os) = []
  /\ base_indegree (snd (add_node d x)) !! add_node_count os = Some 0%Z
  /\ (forall i, i < add_node_count os ->
        nodes (snd (add_node d x)) !! i = nodes d !! i
        /\ succs_of (snd (add_node d x)) i = succs_of d i
        /\ base_indegree (snd (add_node d x)) !! i = base_indegree d !! i).
Proof.
  intros Hrun.
  pose proof (apply_ops_size os _ d Hrun) as Hsize.
  change (size (new_dag r0)) with 0 in Hsize. simpl in Hsize.
  pose proof (tallied_built os _ d (tallied_new_dag r0) Hrun) as [Ha Hb Hr Hi].
  rewrite <- Hsize. unfold size in *. simpl.
  split; [done|]. split; [done|].
  split; [rewrite length_app; simpl; lia|].
  split; [by rewrite lookup_app_r, Nat.sub_diag by lia|].
  split.
  { unfold succs_of. simpl. rewrite lookup_app_r by lia.
    by rewrite Ha, Nat.sub_diag. }
  split; [by rewrite lookup_app_r, Hb, Nat.sub_diag by lia|].
  intros i Hi'. unfold succs_of. simpl.
  rewrite !lookup_app_l by lia. done.
Qed.

(** X2: every graph built with the operations of the store keeps the three
    vectors [nodes], [adj] and [base_indegree] at the same length and stores
    only handles of the graph in its successor lists; [base_indegree[v]]
    holds the number of edges into [v] for every node [v] that has at most
    [INT_MAX] of them, the most its [int] counter can hold. *)
Theorem built_store_invariant (r0 : Z) (os : list op) (d : DAG) :
  apply_ops (new_dag r0) os = Some d ->
  length (adj d) = size d
  /\ length (base_indegree d) = size d
  /\ (forall u v, v ∈ succs_of d u -> u < size d /\ v < size d)
  /\ (forall v, v < size d -> (Z.of_nat (indegree d v) <= INT_MAX)%Z ->
        base_indegree d !! v = Some (Z.of_nat (indegree d v))).
Proof.
  intros Hrun.
  pose proof (tallied_built os _ d (tallied_new_dag r0) Hrun) as Ht.
  destruct Ht as [Ha Hb Hr Hi]. unfold size.
  split; [done|]. split; [done|]. split.
  - intros u v Hv. split; [|by eapply Hr].
    destruct (decide (u < length (nodes d))) as [|Hge]; [done|].
    rewrite succs_of_ge in Hv by lia. by apply elem_of_nil in Hv.
  - intros v Hv Hmax. rewrite Hi by done. f_equal.
    apply wrap_int_id. unfold INT_MIN. lia.
Qed.

Lemma total_add {A : Type} (f g : A -> nat) (l : list A) :
  total (fun x => f x + g x) l = total f l + total g l.
Proof. induction l as [|x l IH]; simpl; lia. Qed.

Lemma total_swap {A B : Type} (f : A -> B -> nat) (la : list A) (lb : list B) :
  total (fun a => total (fun b => f a b) lb) la
  = total (fun b => total (fun a => f a b) la) lb.
Proof.
  induction la as [|a la IH]; simpl.
  - symmetry. by apply total_zero.
  - rewrite IH. symmetry. apply total_add.
Qed.

Lemma total_fmap {A B : Type} (f : B -> nat) (g : A -> B) (l : list A) :
  total f (g <$> l) = total (fun x => f (g x)) l.
Proof. induction l as [|x l IH]; simpl; [done|]. by rewrite <- IH. Qed.

(** Each element of a list of handles below [n] is counted once. *)
Lemma total_occ_seq (l : list nat) (n : nat) :
  Forall (fun x => x < n) l -> total (fun v => occ v l) (seq 0 n) = length l.
Proof.
  induction 1 as [|x l Hx Hl IH]; simpl.
  - by apply total_zero.
  - assert (total (fun v => occ v (x :: l)) (seq 0 n)
            = total (fun v => if decide (x = v) then 1 else 0) (seq 0 n)
              + total (fun v => occ v l) (seq 0 n)) as ->.
    { rewrite <- total_add. apply total_ext. intros v _. apply occ_cons. }
    rewrite IH.
    pose proof (total_update (fun v => if decide (x = v) then 1 else 0)
                  (fun _ => 0) (seq 0 n) x (NoDup_seq _ _)) as Hup.
    cbv beta in Hup. rewrite decide_True in Hup by done.
    rewrite (total_zero (fun _ => 0)) in Hup by done.
    assert (total (fun v => if decide (x = v) then 1 else 0) (seq 0 n) + 0 = 0 + 1)
      as Hone; [|simpl; lia].
    apply Hup; [apply elem_of_seq; lia|].
    intros v _ Hv. by rewrite decide_False.
Qed.

Lemma total_lookup_seq {A : Type} (f : A -> nat) (dflt : A) (l : list A) :
  total (fun i => f (default dflt (l !! i))) (seq 0 (length l)) = total f l.
Proof.
  induction l as [|x l IH]; simpl; [done|]. f_equal.
  rewrite <- fmap_S_seq, total_fmap. exact IH.
Qed.

Lemma Zsum_indexed (f : nat -> nat) (l : list Z) :
  (forall i, i < length l -> l !! i = Some (Z.of_nat (f i))) ->
  Zsum l = Z.of_nat (total f (seq 0 (length l))).
Proof.
  revert f. induction l as [|z l IH]; intros f Hf; simpl; [done|].
  pose proof (Hf 0 ltac:(simpl; lia)) as H0. simpl in H0. injection H0 as ->.
  rewrite (IH (fun i => f (S i))).
  - rewrite <- fmap_S_seq, total_fmap. lia.
  - intros i Hi. apply (Hf (S i)). simpl. lia.
Qed.

(** The static in-degrees of a well-formed store add up to the number of
    stored edges. *)
Lemma indegree_sum (d : DAG) :
  wf_store d -> Zsum (base_indegree d) = Z.of_nat (edge_count d).
Proof.
  intros [Ha Hb Hr Hi].
  rewrite (Zsum_indexed (indegree d)).
  2:{ intros i Hlt. apply Hi. by rewrite <- Hb. }
  rewrite Hb.
  f_equal. unfold indegree, edge_count.
  rewrite total_swap.
  rewrite <- (total_lookup_seq length [] (adj d)), Ha.
  apply total_ext. intros u _. fold (succs_of d u).
  apply total_occ_seq. apply Forall_forall. intros v Hv. by eapply Hr.
Qed.

Lemma total_alter {A : Type} (f : A -> nat) (g : A -> A) (l : list A) (i : nat) (x : A) :
  l !! i = Some x -> total f (alter g i l) + f x = total f l + f (g x).
Proof.
  revert i. induction l as [|y l IH]; intros [|i] Hi; try done.
  - injection Hi as ->. change (alter g 0 (x :: l)) with (g x :: l). simpl. lia.
  - specialize (IH i Hi). change (alter g (S i) (y :: l)) with (y :: alter g i l).
    simpl. lia.
Qed.

(** X3: in every graph built with the operations of the store in which no
    node has more than [INT_MAX] edges into it, the static in-degrees of
    all nodes add up to the number of edges stored in the successor lists.
    An [add_edge] with both handles in range stores one more edge and one
    with a handle out of range stores none; the sum still agrees after an
    [add_edge] to a node with fewer than [INT_MAX] edges into it. *)
Theorem indegree_sum_is_edge_count (r0 : Z) (os : list op) (d : DAG)
    (from to : NodeID) :
  apply_ops (new_dag r0) os = Some d ->
  (forall v, v < size d -> (Z.of_nat (indegree d v) <= INT_MAX)%Z) ->
  Zsum (base_indegree d) = Z.of_nat (edge_count d)
  /\ edge_count (add_edge d from to)
     = edge_count d + (if decide (from < size d /\ to < size d) then 1 else 0)
  /\ ((Z.of_nat (indegree d to) < INT_MAX)%Z ->
      Zsum (base_indegree (add_edge d from to))
      = Z.of_nat (edge_count (add_edge d from to))).
Proof.
  intros Hrun Hmax.
  pose proof (built_wf r0 os d Hrun Hmax) as Hwf.
  split; [by apply indegree_sum|].
  split; [|by intros Hto; apply indegree_sum, wf_add_edge].
  unfold edge_count, size.
  destruct (decide (from < length (nodes d) /\ to < length (nodes d)))
    as [[Hf Ht]|Hout]; [|rewrite add_edge_out_of_range by done; lia].
  destruct (add_edge_in_range d from to Hf Ht) as (_ & -> & _).
  destruct (adj d !! from) as [succs|] eqn:E.
  - pose proof (total_alter length (fun succs => succs ++ [to]) _ _ _ E) as Hal.
    cbv beta in Hal. rewrite length_app in Hal. simpl in Hal. lia.
  - apply lookup_ge_None in E. rewrite (wf_adj_length d Hwf) in E. lia.
Qed.

(** *** Ports *)

Lemma any_cast_same (t : TypeId) (v : denote t) :
  any_cast t (AnyVal t v) = Value v.
Proof.
  unfold any_cast. destruct (decide (t = t)) as [e|]; [|done].
  by rewrite (proof_irrel e eq_refl).
Qed.

(** X4: a value written to the port of a node is what a read of that port
    at the type written returns; the write leaves the node's payload, the
    ports and payloads of the other nodes, the edges and the run-state as
    they were. *)
Theorem port_round_trip (d d' : DAG) (id : NodeID) (t : TypeId) (v : denote t) :
  set_port_value d id (AnyVal t v) = Some d' ->
  get_port_value d' id t = Value v
  /\ (forall V, V <> t -> get_port_value d' id V = BadAnyCast)
  /\ (forall j V, j <> id -> get_port_value d' j V = get_port_value d j V)
  /\ (forall j, data <$> nodes d' !! j = data <$> nodes d !! j)
  /\ size d' = size d
  /\ adj d' = adj d /\ base_indegree d' = base_indegree d
  /\ current_indegree d' = current_indegree d /\ remaining d' = remaining d.
Proof.
  unfold set_port_value, get_port_value, size.
  destruct (nodes d !! id) as [nd|] eqn:E; [|done]. intros [= <-]. simpl.
  pose proof (lookup_lt_Some _ _ _ E) as Hlt.
  split; [rewrite list_lookup_insert_eq by done; simpl; apply any_cast_same|].
  split.
  { intros V HV. rewrite list_lookup_insert_eq by done. simpl.
    by apply any_cast_mismatch. }
  split; [intros j V Hj; by rewrite list_lookup_insert_ne|].
  split.
  { intros j. destruct (decide (j = id)) as [->|Hj].
    - by rewrite list_lookup_insert_eq, E.
    - by rewrite list_lookup_insert_ne. }
  split; [apply length_insert | done].
Qed.

(** X5: of two writes to the same port the later one wins, and writes to
    the ports of different nodes can be done in either order. *)
Theorem port_writes_compose (d d1 : DAG) (i j : NodeID) (a b : any) :
  set_port_value d i a = Some d1 ->
  (set_port_value d1 i b = set_port_value d i b)
  /\ (i <> j ->
      set_port_value d1 j b
      = match set_port_value d j b with
        | Some d2 => set_port_value d2 i a
        | None => None
        end).
Proof.
  unfold set_port_value.
  destruct (nodes d !! i) as [ni|] eqn:Ei; [|done]. intros [= <-]. simpl.
  pose proof (lookup_lt_Some _ _ _ Ei) as Hlt.
  split.
  - rewrite list_lookup_insert_eq by done. simpl.
    by rewrite list_insert_insert_eq.
  - intros Hij. rewrite list_lookup_insert_ne by done.
    destruct (nodes d !! j) as [nj|] eqn:Ej; [|done]. simpl.
    rewrite list_lookup_insert_ne, Ei by done.
    by rewrite list_insert_insert_ne by done.
Qed.

End StoreExtraFacts.

(** ** Further properties of the thread pool *)

Lemma pool_fifo_step (a : pthread) (p p' : pool) :
  pool_step a p = Next p' ->
  rev (enqueued_labels (history p))
    = rev (started_labels (history p)) ++ (task_label <$> tasks p) ->
  rev (enqueued_labels (history p'))
    = rev (started_labels (history p')) ++ (task_label <$> tasks p').
Proof.
  intros Hstep Hinv. destruct a as [t|k| ]; simpl in Hstep.
  - destruct (destructor p); try done; injection Hstep as <-; simpl.
    all: rewrite Hinv, fmap_app; simpl; by rewrite app_assoc.
  - unfold worker_step in Hstep.
    destruct (workers p !! k) as [w|]; [|done].
    destruct w as [|l todo|]; [| |done].
    + destruct (tasks p) as [|t rest] eqn:Et.
      * destruct (stop p); [|done]. injection Hstep as <-. simpl.
        by rewrite Et.
      * injection Hstep as <-. simpl. rewrite Hinv. simpl.
        by rewrite <- app_assoc.
    + destruct todo as [|t todo]; injection Hstep as <-; simpl; [done|].
      rewrite Hinv, fmap_app; simpl; by rewrite app_assoc.
  - unfold destructor_step in Hstep. destruct (destructor p) as [|j|]; [| |done].
    + by injection Hstep as <-.
    + destruct (workers p !! j) as [w|].
      * destruct w; try done. by injection Hstep as <-.
      * by injection Hstep as <-.
Qed.

(** X6: the queue of the pool is first in, first out and loses nothing:
    at every moment the tasks started so far, in the order in which they
    were started, followed by the tasks waiting in the queue, are exactly
    the tasks enqueued so far, in the order in which they were enqueued.
    So a task is started only after every task enqueued before it, no task
    is started twice, and none is started that was not enqueued. *)
Theorem pool_is_fifo (n : nat) (sched : list pthread) (p : pool) :
  run_pool sched (ThreadPool n) = Next p ->
  rev (enqueued_labels (history p))
  = rev (started_labels (history p)) ++ (task_label <$> tasks p).
Proof.
  apply (run_with_invariant pool_step
    (fun p => rev (enqueued_labels (history p))
              = rev (started_labels (history p)) ++ (task_label <$> tasks p))).
  - intros a c c' Hc Hs. by apply (pool_fifo_step a c c').
  - done.
Qed.

Lemma shutdown_inv_init (n : nat) : shutdown_inv n (ThreadPool n).
Proof.
  split; simpl; try done.
  - by rewrite spawn_workers_length.
  - intros _.
    eapply Forall_impl; [apply (spawn_workers_wait n []); constructor|].
    by intros w ->.
Qed.

(** A step of a worker that has not returned keeps [shutdown_inv]. *)
Lemma shutdown_inv_worker (n : nat) (p : pool) (k : nat) (w w' : pworker)
    (e : list pevent) (q : list task) :
  shutdown_inv n p -> workers p !! k = Some w -> w <> PExited ->
  (w' = PExited -> stop p = true) -> ~ In PStopped e ->
  shutdown_inv n {| workers := <[k := w']> (workers p); tasks := q;
                    stop := stop p; destructor := destructor p;
                    history := e ++ history p |}.
Proof.
  intros [Hsz Hst Hev Hlive Hj] Ew Hw Hw' He.
  split; simpl.
  - by rewrite length_insert.
  - done.
  - rewrite <- Hev, in_app_iff. tauto.
  - intros Hs. apply Forall_insert; [by apply Hlive|].
    intros ->. rewrite Hw' in Hs; done.
  - destruct (destructor p) as [|j|]; [done| |].
    + intros k' Hk'. rewrite (lookup_insert_cases _ _ _ _ _ Ew).
      destruct (decide (k' = k)) as [->|]; [|by apply Hj].
      rewrite (Hj k Hk') in Ew. congruence.
    + exfalso. apply Hw. exact (Forall_lookup_1 _ _ _ _ Hj Ew).
Qed.

Lemma shutdown_inv_enqueue (n : nat) (p : pool) (t : task) :
  shutdown_inv n p -> shutdown_inv n (enqueue t p).
Proof.
  intros [Hsz Hst Hev Hlive Hj]. split; simpl; try done.
  rewrite <- Hev. split; [intros [?|?]; [done|tauto] | tauto].
Qed.

Lemma shutdown_inv_step (n : nat) (a : pthread) (p p' : pool) :
  shutdown_inv n p -> pool_step a p = Next p' -> shutdown_inv n p'.
Proof.
  intros Hinv Hstep. destruct a as [t|k| ]; simpl in Hstep.
  - destruct (destructor p); try done; injection Hstep as <-;
      by apply shutdown_inv_enqueue.
  - unfold worker_step in Hstep.
    destruct (workers p !! k) as [w|] eqn:Ew; [|done].
    destruct w as [|l todo|]; [| |done].
    + destruct (tasks p) as [|t rest] eqn:Et.
      * destruct (stop p) eqn:Es; [|done]. injection Hstep as <-.
        apply (shutdown_inv_worker n p k PWait PExited [PExit k] (tasks p));
          try done.
        by intros [?|[]].
      * injection Hstep as <-.
        apply (shutdown_inv_worker n p k PWait _ [PStarted k (task_label t)] rest);
          try done.
        by intros [?|[]].
    + destruct todo as [|t todo]; injection Hstep as <-.
      * apply (shutdown_inv_worker n p k (PRun l []) PWait [PFinished k l] (tasks p));
          try done.
        by intros [?|[]].
      * apply (shutdown_inv_worker n p k (PRun l (t :: todo)) (PRun l todo)
                 [PEnqueued (task_label t)] (tasks p ++ [t])); try done.
        by intros [?|[]].
  - destruct Hinv as [Hsz Hst Hev Hlive Hj].
    unfold destructor_step in Hstep.
    destruct (destructor p) as [|j|] eqn:Ed; [| |done].
    + injection Hstep as <-. split; simpl; try done.
      * split; [done | by left].
      * intros k Hk. lia.
    + destruct (workers p !! j) as [w|] eqn:Ew.
      * destruct w; try done. injection Hstep as <-.
        split; simpl; try done.
        -- split; [done | intros _; by apply Hst].
        -- split; [done | intros _; right; by apply Hev].
        -- intros k Hk. destruct (decide (k = j)) as [->|]; [done|].
           apply Hj. lia.
      * injection Hstep as <-. split; simpl; try done.
        -- split; [done | intros _; by apply Hst].
        -- split; [done | intros _; by apply Hev].
        -- apply Forall_lookup. intros k w Hw.
           rewrite Hj in Hw; [by injection Hw|].
           apply lookup_ge_None in Ew. apply lookup_lt_Some in Hw. lia.
Qed.

Lemma shutdown_inv_reachable (n : nat) (sched : list pthread) (p : pool) :
  run_pool sched (ThreadPool n) = Next p -> shutdown_inv n p.
Proof.
  apply (run_with_invariant pool_step (shutdown_inv n)).
  - intros a c c'. apply shutdown_inv_step.
  - apply shutdown_inv_init.
Qed.

Lemma stop_is_kept (a : pthread) (p p' : pool) :
  pool_step a p = Next p' -> stop p = true -> stop p' = true.
Proof.
  intros Hstep Hs. destruct a as [t|k| ]; simpl in Hstep.
  - destruct (destructor p); try done; by injection Hstep as <-.
  - unfold worker_step in Hstep.
    destruct (workers p !! k) as [w|]; [|done].
    destruct w as [|l todo|]; [| |done].
    + destruct (tasks p).
      * rewrite Hs in Hstep. by injection Hstep as <-.
      * by injection Hstep as <-.
    + destruct todo; by injection Hstep as <-.
  - unfold destructor_step in Hstep. destruct (destructor p) as [|j|]; [| |done].
    + by injection Hstep as <-.
    + destruct (workers p !! j) as [w|].
      * destruct w; try done. by injection Hstep as <-.
      * by injection Hstep as <-.
Qed.

(** X7: the pool has a fixed size and [stop] belongs to the destructor: in
    every state the pool reaches the number of workers is the one it was
    built with, [stop] is set exactly when the destructor has been entered,
    no worker has returned while [stop] is not set, and once set [stop]
    stays set. *)
Theorem stop_discipline (n : nat) (sched : list pthread) (p : pool) :
  run_pool sched (ThreadPool n) = Next p ->
  length (workers p) = n
  /\ (stop p = true <-> destructor p <> DLive)
  /\ (stop p = true <-> In PStopped (history p))
  /\ (stop p = false ->
        forall k w, workers p !! k = Some w -> w <> PExited)
  /\ (stop p = true -> forall sched' p',
        run_pool sched' p = Next p' -> stop p' = true).
Proof.
  intros Hrun. destruct (shutdown_inv_reachable n sched p Hrun)
    as [Hsz Hst Hev Hlive Hj].
  split; [done|]. split; [done|]. split; [by rewrite Hev|].
  split.
  - intros Hs k w Hw. exact (Forall_lookup_1 _ _ _ _ (Hlive Hs) Hw).
  - intros Hs sched' p'.
    apply (run_with_invariant pool_step (fun q => stop q = true)); [|done].
    intros a c c' Hc Hstep. by apply (stop_is_kept a c c').
Qed.

(** X8: the destructor finishes only after all workers have returned: when
    it is done every worker has left its loop having finished each task it
    started, no task is started afterwards, and a later [enqueue] is a use
    of a destroyed pool. *)
Theorem destruction_completes (n : nat) (sched : list pthread) (p : pool) :
  run_pool sched (ThreadPool n) = Next p ->
  destructor p = DDone ->
  (forall k, k < n -> workers p !! k = Some PExited)
  /\ (forall k, started_by k (history p) = finished_by k (history p))
  /\ (forall t, pool_step (PClient t) p = Fault)
  /\ (forall k, pool_step (PWorker k) p = Blocked)
  /\ pool_step PDestructor p = Blocked.
Proof.
  intros Hrun Hd.
  destruct (shutdown_inv_reachable n sched p Hrun) as [Hsz Hst Hev Hlive Hj].
  destruct (pool_reachable_inv n sched p Hrun) as [Hjoin Htasks].
  rewrite Hd in Hj.
  assert (forall k w, workers p !! k = Some w -> w = PExited) as Hall
    by (intros k w Hw; exact (Forall_lookup_1 _ _ _ _ Hj Hw)).
  split; [|split; [|split; [|split]]].
  - intros k Hk. destruct (workers p !! k) as [w|] eqn:E.
    + by rewrite (Hall k w E).
    + apply lookup_ge_None in E. lia.
  - intros k. rewrite Htasks.
    destruct (workers p !! k) as [w|] eqn:E; [|simpl; lia].
    rewrite (Hall k w E). simpl. lia.
  - intros t. simpl. by rewrite Hd.
  - intros k. simpl. unfold worker_step.
    destruct (workers p !! k) as [w|] eqn:E; [|done]. by rewrite (Hall k w E).
  - simpl. unfold destructor_step. by rewrite Hd.
Qed.

(** ** Further properties of a pass *)






Section PassExtras.
Context `{Params}.
Variable executor : nat -> list Node -> Node -> Node.

Section Fixed.
Variable d0 : DAG.
Hypothesis Hwf : wf_store d0.

(** Every predecessor of a node that a worker holds has returned from the
    work function. *)
Lemma held_preds_finished c k w u v :
  pass_inv d0 c -> threads c !! k = Some w -> on_node v w = 1 ->
  v ∈ succs_of d0 u -> finished_n (trace c) u <> 0.
Proof.
  intros Hinv Ew Hon Hedge.
  assert (u < length (nodes d0)) as Hu.
  { destruct (decide (u < length (nodes d0))) as [|Hge]; [done|].
    rewrite succs_of_ge in Hedge by (rewrite (wf_adj_length d0 Hwf); lia).
    by apply elem_of_nil in Hedge. }
  pose proof (wf_succ_range d0 Hwf u v Hedge) as Hv.
  destruct (worker_node_once d0 c k w v Hinv Ew Hon) as (_ & _ & _ & Hsub).
  pose proof (pi_ready _ _ Hinv v Hv (indegree_pos d0 u v Hu Hedge)) as Hr.
  destruct (decide (pending d0 c v = 0)) as [Hz|]; [|lia].
  destruct (pending_zero_preds d0 c u v Hinv Hz Hu Hedge) as [Hin _].
  intros Hf. clear -Hin Hf.
  induction (trace c) as [|e t IH]; [done|].
  rewrite finished_n_cons in Hf. destruct Hin as [->|Hin].
  - rewrite decide_True in Hf by done. lia.
  - apply IH; [done | lia].
Qed.


End Fixed.
End PassExtras.

Section PassOrder.
Context `{Params}.
Variable executor : nat -> list Node -> Node -> Node.
Variable d0 : DAG.
Hypothesis Hwf : wf_store d0.



End PassOrder.

Section PassOrderTheorem.
Context `{Params}.
Variable executor : nat -> list Node -> Node -> Node.


End PassOrderTheorem.


Section PassExtraTheorems.
Context `{Params}.
Variable executor : nat -> list Node -> Node -> Node.



Lemma no_worker_step (a : thread) (c c' : config) :
  step executor a c = Next c' -> threads c = [] ->
  threads c' = []
  /\ forall u, started_n (trace c') u = started_n (trace c) u.
Proof.
  intros Hstep Hth.
  pose proof (step_threads_length executor a c c' Hstep) as Hlen.
  rewrite Hth in Hlen. split; [by apply nil_length_inv|].
  intros u.
  destruct (step_effect executor a c c' Hstep) as [[Ht Hn]|(e & Ht & He)].
  { by rewrite Ht. }
  rewrite Ht, started_n_cons.
  destruct e as [w|w|w|w1 w2|w]; cbv beta iota; try done.
  destruct He as [[k Ew] _]. by rewrite Hth in Ew.
Qed.


(** X11: with a pool that has no worker (a [ThreadPool] built with 0
    threads) a pass on a graph that has a node calls the work function for
    no node and [execute_parallel] never returns. *)
Theorem no_worker_no_return (d : DAG) (sched : list thread) (c : config) :
  wf_store d -> fits d -> nodes d <> [] ->
  run executor sched (execute_parallel 0 d) = Next c ->
  (forall u, started_n (trace c) u = 0) /\ caller c <> MReturned.
Proof.
  intros Hwf Hfits Hne Hrun.
  destruct (pass_reachable executor 0 d sched c Hwf Hfits Hne Hrun) as [Hinv _].
  assert (threads c = [] /\ forall u, started_n (trace c) u = 0) as [_ Hs].
  { revert Hrun.
    apply (run_with_invariant (step executor)
      (fun c => threads c = [] /\ forall u, started_n (trace c) u = 0)).
    - intros a c1 c2 [Ht HQ] Hstep.
      destruct (no_worker_step a c1 c2 Hstep Ht) as [Ht' Hsame].
      split; [done|]. intros u. by rewrite Hsame.
    - unfold execute_parallel. by destruct (nodes d). }
  split; [done|]. intros Hret.
  assert (0 < length (nodes (reset d))) as H0 by exact (pi_nonempty _ _ Hinv).
  destruct (returned_all_once (reset d) c 0 Hinv Hret H0) as (_ & Hst & _).
  rewrite Hs in Hst. done.
Qed.



End PassExtraTheorems.

Section CounterFacts.
Context `{Params}.
Variable d0 : DAG.
Hypothesis Hwf : wf_store d0.






End CounterFacts.

Section CounterTheorems.
Context `{Params}.
Variable executor : nat -> list Node -> Node -> Node.



End CounterTheorems.

(** ** The notification at the end of a pass *)

Section NotifyFacts.
Context `{Params}.
Variable executor : nat -> list Node -> Node -> Node.

Variable d0 : DAG.
Hypothesis Hwf : wf_store d0.


End NotifyFacts.

Section NotifyTheorem.
Context `{Params}.
Variable executor : nat -> list Node -> Node -> Node.


End NotifyTheorem.

(** ** The data flow of the sample program *)

Lemma port_after_cons (e : event) (t : list event) (u : NodeID) (z : Z) :
  port_after (e :: t) u z
  = match e with
    | EvFinish u' => if decide (u' = u) then AnyVal TInt z else port_after t u z
    | _ => port_after t u z
    end.
Proof.
  unfold port_after. rewrite finished_n_cons.
  destruct e as [w|w|w|w1 w2|w]; try done.
  destruct (decide (w = u)); [|done]. by rewrite decide_False by lia.
Qed.

Lemma diamond_nodes_step (a : thread) (c c' : config) :
  pass_inv (reset diamond) c ->
  step sample_executor a c = Next c' ->
  nodes (graph c) = diamond_nodes (trace c) ->
  nodes (graph c') = diamond_nodes (trace c').
Proof.
  intros Hinv Hstep Hn.
  destruct (step_effect sample_executor a c c' Hstep) as [[Ht Hn']|(e & Ht & He)].
  { by rewrite Hn', Ht. }
  rewrite Ht. unfold diamond_nodes. rewrite !port_after_cons.
  destruct e as [w|w|w|w1 w2|w];
    try (first [rewrite He | destruct He as [_ ->]]; exact Hn).
  destruct He as (k & nd & Ew & End & ->).
  assert (forall u z, w ∈ succs_of (reset diamond) u ->
            port_after (trace c) u z = AnyVal TInt z) as Hpred.
  { intros u z Hedge. unfold port_after.
    assert (on_node w (WExec w) = 1) as Hon by (simpl; by rewrite decide_True).
    pose proof (held_preds_finished (reset diamond) (wf_reset _ diamond_wf)
                  c k _ u w Hinv Ew Hon Hedge) as Hf.
    by rewrite decide_False. }
  rewrite Hn in End |- *. unfold diamond_nodes in End |- *.
  destruct w as [|[|[|[|w]]]]; simpl in End; [| | | |done];
    injection End as <-.
  - done.
  - unfold sample_executor. simpl. unfold port_int, get_port_value. simpl.
    rewrite (Hpred 0 100%Z) by (apply list_elem_of_In; simpl; tauto). done.
  - unfold sample_executor. simpl. unfold port_int, get_port_value. simpl.
    rewrite (Hpred 0 100%Z) by (apply list_elem_of_In; simpl; tauto). done.
  - done.
Qed.

Lemma diamond_nodes_reachable (pool_size : nat) (sched : list thread) (c : config) :
  run sample_executor sched (execute_parallel pool_size diamond) = Next c ->
  pass_inv (reset diamond) c /\ nodes (graph c) = diamond_nodes (trace c).
Proof.
  apply (run_with_invariant (step sample_executor)
    (fun c => pass_inv (reset diamond) c
              /\ nodes (graph c) = diamond_nodes (trace c))).
  - intros a c1 c2 [Hi Hn] Hstep. split.
    + apply (step_inv sample_executor (reset diamond) (wf_reset _ diamond_wf)
               (proj2 diamond_fits) a c1 c2 Hi Hstep).
    + by apply (diamond_nodes_step a c1 c2).
  - split; [|done].
    by apply (pass_reachable sample_executor pool_size diamond [] _
                diamond_wf diamond_fits).
Qed.

(** X15: the diamond of the sample [main] computes the same values under
    every interleaving and with every pool size.  Whenever the work
    function of the aggregator is running, the ports of the two workers
    hold the [int]s 150 and 200, so that the sum it prints is 350; and when
    [execute_parallel] has returned the ports of the source and of the two
    workers hold 100, 150 and 200. *)
Theorem diamond_data_flow (pool_size : nat) (sched : list thread) (c : config) :
  run sample_executor sched (execute_parallel pool_size diamond) = Next c ->
  ((exists k, threads c !! k = Some (WExec 3)) ->
     get_port_value (graph c) 1 TInt = Value 150%Z
     /\ get_port_value (graph c) 2 TInt = Value 200%Z
     /\ (port_int (nodes (graph c)) 1 + port_int (nodes (graph c)) 2 = 350)%Z)
  /\ (caller c = MReturned ->
     get_port_value (graph c) 0 TInt = Value 100%Z
     /\ get_port_value (graph c) 1 TInt = Value 150%Z
     /\ get_port_value (graph c) 2 TInt = Value 200%Z).
Proof.
  intros Hrun. destruct (diamond_nodes_reachable pool_size sched c Hrun)
    as [Hinv Hn].
  unfold port_int, get_port_value. simpl. rewrite Hn. simpl. split.
  - intros [k Ew].
    assert (on_node 3 (WExec 3) = 1) as Hon by done.
    pose proof (held_preds_finished (reset diamond) (wf_reset _ diamond_wf)
                  c k _ 1 3 Hinv Ew Hon) as H1.
    pose proof (held_preds_finished (reset diamond) (wf_reset _ diamond_wf)
                  c k _ 2 3 Hinv Ew Hon) as H2.
    unfold port_after.
    rewrite !decide_False
      by (first [apply H1 | apply H2]; apply list_elem_of_In; simpl; tauto).
    done.
  - intros Hret. unfold port_after.
    destruct (returned_all_once (reset diamond) c 0 Hinv Hret) as (_ & _ & F0 & _);
      [simpl; lia|].
    destruct (returned_all_once (reset diamond) c 1 Hinv Hret) as (_ & _ & F1 & _);
      [simpl; lia|].
    destruct (returned_all_once (reset diamond) c 2 Hinv Hret) as (_ & _ & F2 & _);
      [simpl; lia|].
    rewrite F0, F1, F2. done.
Qed.

Lemma no_worker_pool_step (a : pthread) (p p' : pool) :
  pool_step a p = Next p' -> workers p = [] ->
  workers p' = [] /\ started_labels (history p') = started_labels (history p).
Proof.
  intros Hstep Hw. destruct a as [t|k| ]; simpl in Hstep.
  - destruct (destructor p); try done; by injection Hstep as <-.
  - unfold worker_step in Hstep. by rewrite Hw in Hstep.
  - unfold destructor_step in Hstep. destruct (destructor p) as [|j|]; [| |done].
    + by injection Hstep as <-.
    + rewrite Hw in Hstep. simpl in Hstep. by injection Hstep as <-.
Qed.

(** X16: a pool built with 0 threads accepts tasks and never runs them:
    in every state it reaches no task has been started and the queue holds
    every task enqueued, in the order enqueued. *)
Theorem pool_without_workers (sched : list pthread) (p : pool) :
  run_pool sched (ThreadPool 0) = Next p ->
  workers p = []
  /\ started_labels (history p) = []
  /\ task_label <$> tasks p = rev (enqueued_labels (history p)).
Proof.
  intros Hrun.
  assert (workers p = [] /\ started_labels (history p) = []) as [Hw Hs].
  { revert Hrun.
    apply (run_with_invariant pool_step
      (fun p => workers p = [] /\ started_labels (history p) = [])); [|done].
    intros a c c' [Hw Hs] Hstep.
    destruct (no_worker_pool_step a c c' Hstep Hw) as [Hw' Hs'].
    split; [done | by rewrite Hs']. }
  split; [done|]. split; [done|].
  pose proof (pool_is_fifo 0 sched p Hrun) as Hfifo.
  by rewrite Hs in Hfifo.
Qed.

Section PortsPersist.
Context `{Params}.

Lemma port_kept_by_op (d d' : DAG) (o : op) (id : NodeID) :
  id < size d -> sets_port id o = false -> apply_op d o = Some d' ->
  nodes d' !! id = nodes d !! id.
Proof.
  unfold size. intros Hid Ho. destruct o as [x|from to| |id' value]; simpl.
  - intros [= <-]. simpl. by rewrite lookup_app_l.
  - intros [= <-]. unfold add_edge. by destruct (_ || _).
  - by intros [= <-].
  - unfold set_port_value. destruct (nodes d !! id'); [|done].
    intros [= <-]. simpl. simpl in Ho. apply bool_decide_eq_false in Ho.
    by rewrite list_lookup_insert_ne.
Qed.

(** X17: the payload and the port of a node are kept by every operation of
    the store other than a write to that very port: adding nodes, adding
    edges, [reset()] and writes to other ports leave a read of the port of
    an existing node as it was (a value written in one pass is still there
    after [reset()]). *)
Theorem ports_persist (d d' : DAG) (os : list op) (id : NodeID) :
  id < size d ->
  forallb (fun o => negb (sets_port id o)) os = true ->
  apply_ops d os = Some d' ->
  id < size d'
  /\ nodes d' !! id = nodes d !! id
  /\ forall V, get_port_value d' id V = get_port_value d id V.
Proof.
  revert d. induction os as [|o os IH]; intros d Hid Hos Hrun; simpl in *.
  - by injection Hrun as <-.
  - apply andb_prop in Hos as [Ho Hos]. apply negb_true_iff in Ho.
    destruct (apply_op d o) as [d1|] eqn:E; [|done].
    pose proof (port_kept_by_op d d1 o id Hid Ho E) as Hkeep.
    assert (id < size d1) as Hid1.
    { unfold size. apply lookup_lt_is_Some. rewrite Hkeep.
      by apply lookup_lt_is_Some. }
    destruct (IH d1 Hid1 Hos Hrun) as (Hlt & Hn & Hget).
    split; [done|]. split; [by rewrite Hn|].
    intros V. rewrite Hget. unfold get_port_value. by rewrite Hkeep.
Qed.

End PortsPersist.

(** ** The further properties on the sample runs *)

Lemma handles_are_dense_witness :
  apply_ops (new_dag 0) diamond_ops = Some diamond
  /\ size diamond = 4
  /\ fst (add_node diamond "Logger") = 4.
Proof.
  split; [exact diamond_built|].
  destruct (handles_are_dense 0 diamond_ops diamond "Logger" diamond_built)
    as (Hsize & Hnext & _).
  split; [exact Hsize | exact Hnext].
Defined.

Lemma built_store_invariant_witness :
  apply_ops (new_dag 0) diamond_ops = Some diamond
  /\ base_indegree diamond !! 3 = Some (Z.of_nat (indegree diamond 3))
  /\ length (adj diamond) = size diamond.
Proof.
  split; [exact diamond_built|].
  destruct (built_store_invariant 0 diamond_ops diamond diamond_built)
    as (Hadj & _ & _ & Hbase).
  split; [|exact Hadj].
  apply Hbase; [unfold size; simpl; lia | by vm_compute].
Defined.

Lemma indegree_sum_is_edge_count_witness :
  apply_ops (new_dag 0) diamond_ops = Some diamond
  /\ Zsum (base_indegree diamond) = Z.of_nat (edge_count diamond)
  /\ edge_count (add_edge diamond 3 0) = edge_count diamond + 1
  /\ edge_count (add_edge diamond 3 4) = edge_count diamond + 0.
Proof.
  split; [exact diamond_built|].
  destruct (indegree_sum_is_edge_count 0 diamond_ops diamond 3 0 diamond_built
              diamond_bounded) as (Hsum & Hin & _).
  destruct (indegree_sum_is_edge_count 0 diamond_ops diamond 3 4 diamond_built
              diamond_bounded) as (_ & Hout & _).
  split; [exact Hsum|]. split; [exact Hin | exact Hout].
Defined.

Lemma diamond_written_set :
  set_port_value diamond 0 (AnyVal TInt 7%Z) = Some diamond_written.
Proof. reflexivity. Qed.

Lemma port_round_trip_witness :
  set_port_value diamond 0 (AnyVal TInt 7%Z) = Some diamond_written
  /\ @get_port_value sample_params diamond_written 0 TInt = Value 7%Z
  /\ @get_port_value sample_params diamond_written 0 TString = BadAnyCast.
Proof.
  split; [exact diamond_written_set|].
  destruct (@port_round_trip sample_params diamond diamond_written 0 TInt 7%Z
              diamond_written_set) as (Hget & Hother & _).
  split; [exact Hget|]. apply Hother. discriminate.
Defined.

Lemma port_writes_compose_witness :
  set_port_value diamond 0 (AnyVal TInt 7%Z) = Some diamond_written
  /\ set_port_value diamond_written 0 (AnyVal TInt 9%Z)
     = set_port_value diamond 0 (AnyVal TInt 9%Z).
Proof.
  split; [exact diamond_written_set|].
  exact (proj1 (@port_writes_compose sample_params diamond diamond_written 0 1
                  (AnyVal TInt 7%Z) (AnyVal TInt 9%Z) diamond_written_set)).
Defined.

Lemma ports_persist_witness :
  apply_ops diamond_written [OpReset; OpAddEdge 0 3; OpAddNode "Logger"]
  = Some (snd (add_node (add_edge (reset diamond_written) 0 3) "Logger"))
  /\ @get_port_value sample_params
       (snd (add_node (add_edge (reset diamond_written) 0 3) "Logger")) 0 TInt
     = @get_port_value sample_params diamond_written 0 TInt.
Proof.
  split; [reflexivity|].
  assert (0 < size diamond_written) as H0 by (unfold size; simpl; lia).
  exact (proj2 (proj2
    (@ports_persist sample_params diamond_written _
       [OpReset; OpAddEdge 0 3; OpAddNode "Logger"] 0 H0 eq_refl eq_refl)) TInt).
Defined.

Lemma pool_is_fifo_witness :
  run_pool stop_schedule (ThreadPool 1) = Next stopped_pool
  /\ rev (enqueued_labels (history stopped_pool))
     = rev (started_labels (history stopped_pool))
       ++ (task_label <$> tasks stopped_pool).
Proof.
  split; [exact stop_run|].
  exact (pool_is_fifo 1 stop_schedule stopped_pool stop_run).
Defined.

Lemma shutdown_run :
  run_pool shutdown_schedule (ThreadPool 1) = Next destroyed_pool.
Proof. reflexivity. Qed.

Lemma stop_discipline_witness :
  run_pool stop_schedule (ThreadPool 1) = Next stopped_pool
  /\ length (workers stopped_pool) = 1
  /\ In PStopped (history stopped_pool).
Proof.
  split; [exact stop_run|].
  destruct (stop_discipline 1 stop_schedule stopped_pool stop_run)
    as (Hsz & _ & Hev & _).
  split; [exact Hsz|]. apply Hev. reflexivity.
Defined.

Lemma destruction_completes_witness :
  run_pool shutdown_schedule (ThreadPool 1) = Next destroyed_pool
  /\ destructor destroyed_pool = DDone
  /\ workers destroyed_pool !! 0 = Some PExited
  /\ pool_step (PClient (Task 3 [])) destroyed_pool = Fault.
Proof.
  split; [exact shutdown_run|]. split; [reflexivity|].
  destruct (destruction_completes 1 shutdown_schedule destroyed_pool
              shutdown_run eq_refl) as (Hex & _ & Hfault & _).
  split; [apply Hex; lia | apply Hfault].
Defined.

Lemma idle_run : run_pool [PClient (Task 1 [])] (ThreadPool 0) = Next idle_pool.
Proof. reflexivity. Qed.

Lemma pool_without_workers_witness :
  run_pool [PClient (Task 1 [])] (ThreadPool 0) = Next idle_pool
  /\ started_labels (history idle_pool) = []
  /\ task_label <$> tasks idle_pool = rev (enqueued_labels (history idle_pool)).
Proof.
  split; [exact idle_run|].
  destruct (pool_without_workers [PClient (Task 1 [])] idle_pool idle_run)
    as (_ & Hs & Hq).
  split; [exact Hs | exact Hq].
Defined.






Lemma no_worker_no_return_witness :
  run sample_executor [Caller; Caller; Caller; Caller; Caller]
    (execute_parallel 0 diamond) = Next diamond_unserved
  /\ started_n (trace diamond_unserved) 0 = 0
  /\ caller diamond_unserved <> MReturned.
Proof.
  split; [reflexivity|].
  assert (nodes diamond <> []) as Hne by discriminate.
  destruct (no_worker_no_return sample_executor diamond
              [Caller; Caller; Caller; Caller; Caller] diamond_unserved
              diamond_wf diamond_fits Hne eq_refl) as [Hs Hc].
  split; [apply Hs | exact Hc].
Defined.





Lemma diamond_data_flow_witness :
  run sample_executor diamond_schedule (execute_parallel 2 diamond)
  = Next diamond_final
  /\ @get_port_value sample_params (graph diamond_final) 1 TInt = Value 150%Z
  /\ @get_port_value sample_params (graph diamond_final) 2 TInt = Value 200%Z.
Proof.
  split; [exact diamond_run|].
  destruct (proj2 (diamond_data_flow 2 diamond_schedule diamond_final diamond_run)
              eq_refl) as (_ & H1 & H2).
  split; [exact H1 | exact H2].
Defined.


